(** * scri.utilities: smooth windows, XOR delta codec and Fletcher-32

    A shallow embedding of [src/scri/utilities.py] and the properties of
    its four components:

    - the window kernel ([_transition_function], [transition_function],
      [transition_function_derivative], [bump_function]),
    - [transition_to_constant],
    - the in-place XOR codec ([xor_timeseries], [xor_timeseries_reverse]),
    - the checksum [fletcher32].

    The window code only adds, subtracts, multiplies, divides, compares and
    calls [np.exp]; it is written once over an interface of these operations
    ([Scalar]) and read at two instances: IEEE binary64 (Rocq's primitive
    floats, with [np.exp] a parameter, since NumPy's exponential is C code
    outside the repository) and the real numbers (exact arithmetic). *)

From Stdlib Require Import ZArith Lia Floats Reals Lra.
From stdpp Require Import base option list gmap.

(** ** Scalars *)

(** What the window kernel asks of its number type.  [uninit] stands for the
    content of a cell of [np.empty_like]: whatever the memory held. *)
Class Scalar : Type := {
  num : Type;
  zero : num;
  one : num;
  nadd : num → num → num;
  nsub : num → num → num;
  nmul : num → num → num;
  ndiv : num → num → num;
  nopp : num → num;
  nexp : num → num;
  nle : num → num → bool;
  nlt : num → num → bool;
  maxexp : num;
  uninit : num
}.

Declare Scope num_scope.
Delimit Scope num_scope with num.
Bind Scope num_scope with num.
Notation "a + b" := (nadd a b) : num_scope.
Notation "a - b" := (nsub a b) : num_scope.
Notation "a * b" := (nmul a b) : num_scope.
Notation "a / b" := (ndiv a b) : num_scope.
Notation "- a" := (nopp a) : num_scope.
Notation "a <=? b" := (nle a b) : num_scope.
Notation "a <? b" := (nlt a b) : num_scope.
(** Python's [a >= b] on floats is [b <= a] (false when either is NaN). *)
Notation "a >=? b" := (nle b a) (at level 70) : num_scope.


(** The order facts the index arithmetic of the kernel rests on.  They are
    stated on the boolean comparisons, so that they also hold of IEEE
    comparisons, where every comparison with NaN is false. *)
Class ScalarOrder (K : Scalar) : Prop := {
  nle_trans (a b c : num) :
    (a <=? b)%num = true → (b <=? c)%num = true → (a <=? c)%num = true;
  nlt_nle_trans (a b c : num) :
    (a <? b)%num = true → (b <=? c)%num = true → (a <? c)%num = true;
  nle_nlt_trans (a b c : num) :
    (a <=? b)%num = true → (b <? c)%num = true → (a <? c)%num = true;
  nlt_nle (a b : num) : (a <? b)%num = true → (a <=? b)%num = true;
  nlt_not_nle (a b : num) : (a <? b)%num = true → (b <=? a)%num = false;
  not_nle_nlt (a b : num) :
    (a <=? b)%num = false → (a <=? a)%num = true → (b <=? b)%num = true →
    (b <? a)%num = true;
  not_nlt_nle (a b : num) :
    (a <? b)%num = false → (a <=? a)%num = true → (b <=? b)%num = true →
    (b <=? a)%num = true;
  nle_refl_l (a b : num) : (a <=? b)%num = true → (a <=? a)%num = true;
  nle_refl_r (a b : num) : (a <=? b)%num = true → (b <=? b)%num = true
}.

(** *** IEEE binary64 *)

(** The operations are those of IEEE 754, as NumPy computes them on
    [float64]: a division by zero is an infinity or NaN, not an exception,
    and every comparison with NaN is false.  Equality of two values below is
    identity of the binary64 value. *)

(** [np.log(2)]: the double nearest to ln 2. *)
Definition float_log2 : float := 0x1.62e42fefa39efp-1%float.

(** [maxexp = np.finfo(float).maxexp * np.log(2) * 0.99], with
    [np.finfo(float).maxexp = 1024]; the literal is the double that Python
    reads [0.99] as. *)
Definition float_maxexp : float :=
  Eval vm_compute in ((1024 * float_log2) * 0x1.fae147ae147aep-1)%float.

Definition binary64 (np_exp : float → float) : Scalar :=
  {| num := float; zero := 0%float; one := 1%float;
     nadd := PrimFloat.add; nsub := PrimFloat.sub; nmul := PrimFloat.mul;
     ndiv := PrimFloat.div; nopp := PrimFloat.opp; nexp := np_exp;
     nle := PrimFloat.leb; nlt := PrimFloat.ltb;
     maxexp := float_maxexp; uninit := nan |}.

(** *** Exact arithmetic *)

Definition Rleb (a b : R) : bool := if Rle_dec a b then true else false.
Definition Rltb (a b : R) : bool := if Rlt_dec a b then true else false.

Definition reals : Scalar :=
  {| num := R; zero := 0%R; one := 1%R;
     nadd := Rplus; nsub := Rminus; nmul := Rmult; ndiv := Rdiv;
     nopp := Ropp; nexp := exp; nle := Rleb; nlt := Rltb;
     maxexp := (1024 * ln 2 * (99 / 100))%R; uninit := 0%R |}.

(** ** The window kernel *)

Section Kernel.
Context {K : Scalar}.
Implicit Types (x a rest : list num) (i lo hi : nat).
Local Open Scope num_scope.

Definition np_empty_like x : list num := replicate (length x) uninit.
Definition np_zeros_like x : list num := replicate (length x) zero.

(** [a[lo:hi] = v]: [a[:i] = v] is [slice_fill 0 i v a] and [a[i:] = v] is
    [slice_fill i (length a) v a]. *)
Definition slice_fill lo hi (v : num) a : list num :=
  imap (λ k ak, if decide (lo ≤ k < hi)%nat then v else ak) a.

(** [while x[i] <= x0: i += 1], run on [rest = x[i:]].  [None] is the read
    of [x[len(x)]]: the scan has run past the end of the grid. *)
Fixpoint scan_le (x0 : num) rest i : option nat :=
  match rest with
  | [] => None
  | xi :: rest => if xi <=? x0 then scan_le x0 rest (S i) else Some i
  end.

Definition exponent_of (x0 x1 xi : num) : num :=
  let tau := (xi - x0) / (x1 - x0) in
  one / tau - one / (one - tau).

(** The value stored by the body of the second loop. *)
Definition sigmoid (x0 x1 y0 ydiff xi : num) : num :=
  let exponent := exponent_of x0 x1 xi in
  if exponent >=? maxexp then y0
  else y0 + ydiff / (one + nexp exponent).

(** [while x[i] < x1: transition[i] = ...; i += 1], run on [rest = x[i:]]. *)
Fixpoint ramp (x0 x1 y0 ydiff : num) rest i (transition : list num)
  : option (list num * nat) :=
  match rest with
  | [] => None
  | xi :: rest =>
      if xi <? x1
      then ramp x0 x1 y0 ydiff rest (S i) (<[i := sigmoid x0 x1 y0 ydiff xi]> transition)
      else Some (transition, i)
  end.

Definition _transition_function x (x0 x1 y0 y1 : num)
  : option (list num * nat * nat) :=
  let transition := np_empty_like x in
  let ydiff := y1 - y0 in
  i0 ← scan_le x0 x 0;
  let transition := slice_fill 0 i0 y0 transition in
  '(transition, i1) ← ramp x0 x1 y0 ydiff (drop i0 x) i0 transition;
  let transition := slice_fill i1 (length transition) y1 transition in
  Some (transition, i0, i1).

(** With [return_indices] the array and the indices; without, the array. *)
Definition transition_function x (x0 x1 y0 y1 : num) (return_indices : bool)
  : option (list num * option (nat * nat)) :=
  if return_indices
  then '(y, i0, i1) ← _transition_function x x0 x1 y0 y1; Some (y, Some (i0, i1))
  else '(y, _, _) ← _transition_function x x0 x1 y0 y1; Some (y, None).

(** The value stored by the body of the second loop of the derivative;
    [tau**2] is the product [tau * tau]. *)
Definition sigmoid_prime (x0 x1 ydiff xi : num) : num :=
  let tau := (xi - x0) / (x1 - x0) in
  let exponent := one / tau - one / (one - tau) in
  if exponent >=? maxexp then zero
  else
    let exponential := nexp (one / tau - one / (one - tau)) in
    (- ydiff) * exponential
      * ((- one) / (tau * tau) - one / ((one - tau) * (one - tau)))
      * (one / (x1 - x0))
      / ((one + exponential) * (one + exponential)).

Fixpoint ramp_prime (x0 x1 ydiff : num) rest i (transition_prime : list num)
  : option (list num) :=
  match rest with
  | [] => None
  | xi :: rest =>
      if xi <? x1
      then ramp_prime x0 x1 ydiff rest (S i)
             (<[i := sigmoid_prime x0 x1 ydiff xi]> transition_prime)
      else Some transition_prime
  end.

Definition transition_function_derivative x (x0 x1 y0 y1 : num)
  : option (list num) :=
  let transition_prime := np_zeros_like x in
  let ydiff := y1 - y0 in
  i ← scan_le x0 x 0;
  ramp_prime x0 x1 ydiff (drop i x) i transition_prime.

Definition bump_function x (x0 x1 x2 x3 y0 y12 y3 : num) : option (list num) :=
  let bump := np_empty_like x in
  let ydiff01 := y12 - y0 in
  let ydiff23 := y3 - y12 in
  i ← scan_le x0 x 0;
  let bump := slice_fill 0 i y0 bump in
  '(bump, i) ← ramp x0 x1 y0 ydiff01 (drop i x) i bump;
  let i1 := i in
  i ← scan_le x2 (drop i x) i;
  let bump := slice_fill i1 i y12 bump in
  '(bump, i) ← ramp x2 x3 y12 ydiff23 (drop i x) i bump;
  let bump := slice_fill i (length bump) y3 bump in
  Some bump.

End Kernel.

(** Grids: [monotonic x] is [x[i] <= x[j]] for all [i <= j] (so no sample
    is NaN); [exceeds x0 x] says that some sample is strictly above [x0],
    and [reaches x1 x] that some sample is at or above [x1]. *)
Section Grid.
Context {K : Scalar}.
Local Open Scope num_scope.

Fixpoint monotonicb (x : list num) : bool :=
  match x with
  | [] => true
  | xi :: rest => forallb (λ xj, xi <=? xj) (xi :: rest) && monotonicb rest
  end.

Definition monotonic (x : list num) : Prop := monotonicb x = true.
Definition exceeds (x0 : num) (x : list num) : Prop :=
  existsb (λ xj, x0 <? xj) x = true.
Definition reaches (x1 : num) (x : list num) : Prop :=
  existsb (λ xj, x1 <=? xj) x = true.

End Grid.


(** *** A double-precision exponential

    [np.exp] is not part of the repository, and the kernel takes it from its
    [Scalar].  To run the kernel on concrete grids, [exp_double] evaluates
    the exponential in binary64 by the usual argument reduction
    [a = k ln 2 + r] and a Taylor polynomial in [r]; it agrees with the C
    library to about one unit in the last place.  No theorem below depends on
    it: it only instantiates them. *)
Definition float_to_Z (f : float) : Z :=
  match Prim2SF f with
  | S754_finite s m e => let v := Z.shiftl (Zpos m) e in if s then (- v)%Z else v
  | _ => 0%Z
  end.

Definition exp_double (a : float) : float :=
  (if is_nan a then nan
   else if 0x1.62e42fefa39efp+9 <? a then infinity
   else if a <? -746 then 0
   else
     let kf := (a * 0x1.71547652b82fep+0 + 0x1.8p+52) - 0x1.8p+52 in
     let r := (a - kf * 0x1.62e42feep-1) - kf * 0x1.a39ef35793c76p-33 in
     let p :=
       1 + r * (1 + r / 2 * (1 + r / 3 * (1 + r / 4 * (1 + r / 5 * (1 + r / 6 *
       (1 + r / 7 * (1 + r / 8 * (1 + r / 9 * (1 + r / 10 * (1 + r / 11 *
       (1 + r / 12 * (1 + r / 13 * (1 + r / 14))))))))))))) in
     Z.ldexp p (float_to_Z kf))%float.

(** The scalars the examples run on. *)
Definition double : Scalar := binary64 exp_double.

(** ** Transition to a constant *)

(** The one law of multiplication that [transition_to_constant] rests on:
    multiplying by the [1.0] of the window leaves a sample as it is. *)
Class ScalarUnit (K : Scalar) : Prop := {
  nmul_one_r (a : num) : (a * one)%num = a
}.

Section TransitionToConstant.
Context {K : Scalar}.
Implicit Types (a b f t : list num) (i lo hi : nat).
Local Open Scope num_scope.

(** [indefinite_integral(g, t)] of the quaternion package: outside the
    repository, a function of the two sequences it is given. *)
Variable indefinite_integral : list num → list num → list num.






End TransitionToConstant.



(** ** The XOR codec *)

(** A time series seen through [c.view(np.uint64)]: one row per time step,
    each row the 64-bit lanes of that step (a single lane when the series is
    one-dimensional). *)
Definition row := list Z.

Definition uint64 (z : Z) : Prop := (0 ≤ z < 2 ^ 64)%Z.

(** [np.bitwise_xor] of two rows. *)
Definition bitwise_xor (a b : row) : row := zip_with Z.lxor a b.

(** [u[i] = np.bitwise_xor(u[i-1], u[i])]; [None] is an index out of range. *)
Definition xor_step (i : nat) (u : list row) : option (list row) :=
  prev ← u !! (i - 1)%nat;
  cur ← u !! i;
  Some (<[i := bitwise_xor prev cur]> u).

(** [for i in indices: body], on a state that the body may fail to update. *)
Definition for_each {S} (indices : list nat) (body : nat → S → option S) (s : S)
  : option S :=
  foldl (λ acc i, acc ≫= body i) (Some s) indices.

(** [range(n - 1, 0, -1)] is [n-1, ..., 1]; [range(1, n)] is [1, ..., n-1]. *)
Definition xor_timeseries (c : list row) : option (list row) :=
  for_each (reverse (seq 1 (length c - 1))) xor_step c.

Definition xor_timeseries_reverse (c : list row) : option (list row) :=
  for_each (seq 1 (length c - 1)) xor_step c.

(** ** Arrays in memory *)

(** A heap of array buffers.  A computation returns a value or raises
    ([None]), and leaves a heap either way. *)
Abbreviation heap A := (gmap positive (list A)) (only parsing).
Abbreviation loc := positive (only parsing).

Section Memory.
Context {A : Type}.

Definition M (R : Type) : Type := gmap loc (list A) → option R * gmap loc (list A).

Definition ret {R} (r : R) : M R := λ h, (Some r, h).

Definition bind {R R'} (m : M R) (k : R → M R') : M R' :=
  λ h, match m h with
       | (Some r, h') => k r h'
       | (None, h') => (None, h')
       end.

(** A value computed outside the heap, or the exception it raised. *)
Definition lift {R} (o : option R) : M R := λ h, (o, h).


Definition load (l : loc) : M (list A) := λ h, (h !! l, h).

(** A write into the buffer at [l]. *)
Definition store (l : loc) (v : list A) : M unit :=
  λ h, match h !! l with
       | Some _ => (Some (), <[l := v]> h)
       | None => (None, h)
       end.

End Memory.

Notation "x ←ₘ m ; k" := (bind m (λ x, k))
  (at level 20, m at level 100, k at level 200, right associativity,
   format "x  ←ₘ  m ;  '/' k").
Notation "' p ←ₘ m ; k" := (bind m (λ x, let 'p := x in k))
  (at level 20, p pattern, m at level 100, k at level 200, right associativity).

Section InMemory.
Context {K : Scalar}.
Local Open Scope num_scope.
Variable indefinite_integral : list num → list num → list num.





End InMemory.

(** [xor_timeseries] and its reverse on a buffer in memory: [u] is a view of
    [c], so the loop writes into [c] itself, and [c] is returned. *)
Definition xor_timeseries_mem (c : loc) : M (A := row) loc :=
  u ←ₘ load c;
  u ←ₘ lift (xor_timeseries u);
  _ ←ₘ store c u;
  ret c.

Definition xor_timeseries_reverse_mem (c : loc) : M (A := row) loc :=
  u ←ₘ load c;
  u ←ₘ lift (xor_timeseries_reverse u);
  _ ←ₘ store c u;
  ret c.

(** ** Fletcher-32 *)

(** [data.reshape((data.size,)).view(np.uint16)] on the bytes of the buffer,
    in the little-endian order of the machines NumPy runs on: two bytes per
    halfword, and a [ValueError] ([None]) when a byte is left over. *)
Fixpoint view_uint16 (bytes : list Z) : option (list Z) :=
  match bytes with
  | [] => Some []
  | [_] => None
  | lo :: hi :: rest => cons (lo + 256 * hi)%Z <$> view_uint16 rest
  end.

(** Addition of [np.uint32] values wraps around. *)
Definition add32 (a b : Z) : Z := ((a + b) mod 2 ^ 32)%Z.

(** [for i in range(block_length): c0 += data[j]; c1 += c0; j += 1]. *)
Fixpoint block_loop (block_length : nat) (data : list Z) (j : nat) (c0 c1 : Z)
  : option (nat * Z * Z) :=
  match block_length with
  | 0 => Some (j, c0, c1)
  | S n =>
      d ← data !! j;
      let c0 := add32 c0 d in
      let c1 := add32 c1 c0 in
      block_loop n data (S j) c0 c1
  end.

(** [while j < size: ...], for at most [fuel] blocks; [None] is a read out
    of range, or the fuel running out. *)
Fixpoint fletcher32_loop (fuel : nat) (block_size : nat) (data : list Z)
    (j : nat) (c0 c1 : Z) : option (Z * Z) :=
  if decide (j < length data)%nat then
    match fuel with
    | 0 => None
    | S fuel =>
        let block_length := min block_size (length data - j) in
        '(j, c0, c1) ← block_loop block_length data j c0 c1;
        fletcher32_loop fuel block_size data j (c0 mod 65535)%Z (c1 mod 65535)%Z
    end
  else Some (c0, c1).

(** The checksum of the halfwords, for a given block size. *)
Definition fletcher32_halfwords (block_size : nat) (data : list Z) : option Z :=
  '(c0, c1) ← fletcher32_loop (length data) block_size data 0 0%Z 0%Z;
  Some (Z.lor (Z.shiftl c1 16 mod 2 ^ 32) c0).

Definition fletcher32 (bytes : list Z) : option Z :=
  data ← view_uint16 bytes;
  fletcher32_halfwords 360 data.

(** *** The algorithm in the words of the specification *)

(** The halfwords in blocks of at most [n]. *)
Fixpoint blocks_of (fuel n : nat) (data : list Z) : list (list Z) :=
  match fuel, data with
  | S fuel, _ :: _ => take n data :: blocks_of fuel n (drop n data)
  | _, _ => []
  end.

Definition blocks (n : nat) (data : list Z) : list (list Z) :=
  blocks_of (length data) n data.

(** [c0 += d], then [c1 += c0], on 32-bit accumulators. *)
Definition accumulate (acc : Z * Z) (d : Z) : Z * Z :=
  let c0 := add32 acc.1 d in (c0, add32 acc.2 c0).

(** [c0 %= 65535] and [c1 %= 65535]. *)
Definition reduce (acc : Z * Z) : Z * Z := (acc.1 mod 65535, acc.2 mod 65535)%Z.

Definition fletcher32_spec (data : list Z) : Z :=
  let acc := foldl (λ acc block, reduce (foldl accumulate acc block)) (0, 0)%Z
               (blocks 360 data) in
  Z.lor (Z.shiftl acc.2 16) acc.1.

(** The same sums in exact integer arithmetic, where nothing wraps. *)
Definition accumulate_exact (acc : Z * Z) (d : Z) : Z * Z :=
  ((acc.1 + d)%Z, (acc.2 + (acc.1 + d))%Z).

Definition fletcher32_exact (block_size : nat) (data : list Z) : Z :=
  let acc := foldl (λ acc block, reduce (foldl accumulate_exact acc block)) (0, 0)%Z
               (blocks block_size data) in
  Z.lor (Z.shiftl acc.2 16) acc.1.

(** *** The checksum in closed form *)

(** The sum of the halfwords, and the sum in which the halfword at index
    [i] of [n] counts [n - i] times (the sum of the running sums). *)
Definition sum_halfwords (data : list Z) : Z := foldr Z.add 0%Z data.

Fixpoint weighted_sum (data : list Z) : Z :=
  match data with
  | [] => 0
  | d :: rest => Z.of_nat (length data) * d + weighted_sum rest
  end%Z.

Definition fletcher32_closed (data : list Z) : Z :=
  (weighted_sum data mod 65535 * 65536 + sum_halfwords data mod 65535)%Z.

(** A byte, and a 16-bit halfword. *)
Definition byte (b : Z) : Prop := (0 ≤ b ≤ 255)%Z.
Definition halfword (d : Z) : Prop := (0 ≤ d ≤ 65535)%Z.

(** The same scalars with other content in uninitialised memory. *)
Definition with_uninit (K : Scalar) (u : @num K) : Scalar :=
  {| num := @num K; zero := zero; one := one; nadd := nadd; nsub := nsub;
     nmul := nmul; ndiv := ndiv; nopp := nopp; nexp := nexp; nle := nle;
     nlt := nlt; maxexp := maxexp; uninit := u |}.

(** ** Notions used by the proofs *)



(** The value that [_transition_function] stores for a sample [v] over the
    reals, and the value that [transition_function_derivative] stores. *)
Definition transition_at (x0 x1 y0 y1 v : R) : R :=
  if Rleb v x0 then y0
  else if Rltb v x1 then sigmoid (K := reals) x0 x1 y0 (y1 - y0)%R v
  else y1.

Definition transition_prime_at (x0 x1 y0 y1 v : R) : R :=
  if Rleb v x0 then 0%R
  else if Rltb v x1 then sigmoid_prime (K := reals) x0 x1 (y1 - y0)%R v
  else 0%R.

(** The transition without the clamp. *)
Definition unclamped (x0 x1 y0 y1 w : R) : R :=
  (y0 + (y1 - y0) / (1 + exp (exponent_of (K := reals) x0 x1 w)))%R.

(** Two buffers of one length that hold the same values below index [m]. *)
Definition agree_below {A} (m : nat) (a b : list A) : Prop :=
  length a = length b ∧ ∀ k, (k < m)%nat → a !! k = b !! k.

(** Facts about a grid of real literals, by computation. *)
Ltac grid_facts :=
  unfold monotonic, reaches; simpl; unfold Rleb;
  repeat match goal with |- context [Rle_dec ?a ?b] =>
    destruct (Rle_dec a b); try (exfalso; lra) end;
  reflexivity.

(** Case analysis on the comparison of two binary64 numbers. *)
Ltac sf_cases :=
  repeat match goal with
  | H : context [(?a ?= ?b)%Z] |- _ => destruct (Z.compare_spec a b); subst
  | H : context [Pos.compare_cont Eq ?a ?b] |- _ =>
      change (Pos.compare_cont Eq a b) with (Pos.compare a b) in H;
      destruct (Pos.compare_spec a b); subst
  | |- context [(?a ?= ?b)%Z] => destruct (Z.compare_spec a b); subst
  | |- context [Pos.compare_cont Eq ?a ?b] =>
      change (Pos.compare_cont Eq a b) with (Pos.compare a b);
      destruct (Pos.compare_spec a b); subst
  end.

Ltac sf_destruct f :=
  let s := fresh "s" in let m := fresh "m" in let e := fresh "e" in
  destruct f as [s|s| |s m e]; try destruct s.

Ltac sf_order :=
  unfold SFleb, SFltb; simpl; intros;
  try congruence; sf_cases; simpl in *; try congruence; try lia.

(** * Properties *)

(** ** The order laws at the two instances *)

Lemma SFleb_trans a b c : SFleb a b = true → SFleb b c = true → SFleb a c = true.
Proof. sf_destruct a; sf_destruct b; sf_destruct c; sf_order. Qed.

Lemma SFltb_leb_trans a b c : SFltb a b = true → SFleb b c = true → SFltb a c = true.
Proof. sf_destruct a; sf_destruct b; sf_destruct c; sf_order. Qed.

Lemma SFleb_ltb_trans a b c : SFleb a b = true → SFltb b c = true → SFltb a c = true.
Proof. sf_destruct a; sf_destruct b; sf_destruct c; sf_order. Qed.

Lemma SFltb_leb a b : SFltb a b = true → SFleb a b = true.
Proof. sf_destruct a; sf_destruct b; sf_order. Qed.

Lemma SFltb_not_leb a b : SFltb a b = true → SFleb b a = false.
Proof. sf_destruct a; sf_destruct b; sf_order. Qed.

Lemma SF_not_leb_ltb a b :
  SFleb a b = false → SFleb a a = true → SFleb b b = true → SFltb b a = true.
Proof. sf_destruct a; sf_destruct b; sf_order. Qed.

Lemma SF_not_ltb_leb a b :
  SFltb a b = false → SFleb a a = true → SFleb b b = true → SFleb b a = true.
Proof. sf_destruct a; sf_destruct b; sf_order. Qed.

Lemma SFleb_refl_l a b : SFleb a b = true → SFleb a a = true.
Proof. sf_destruct a; sf_destruct b; sf_order. Qed.

Lemma SFleb_refl_r a b : SFleb a b = true → SFleb b b = true.
Proof. sf_destruct a; sf_destruct b; sf_order. Qed.

#[export] Instance binary64_order np_exp : ScalarOrder (binary64 np_exp).
Proof.
  split; simpl; intros *; rewrite ?leb_spec, ?ltb_spec.
  - apply SFleb_trans.
  - apply SFltb_leb_trans.
  - apply SFleb_ltb_trans.
  - apply SFltb_leb.
  - apply SFltb_not_leb.
  - apply SF_not_leb_ltb.
  - apply SF_not_ltb_leb.
  - apply SFleb_refl_l.
  - apply SFleb_refl_r.
Qed.

#[export] Instance reals_order : ScalarOrder reals.
Proof.
  split; simpl; unfold Rleb, Rltb; intros *;
    repeat match goal with
    | |- context [Rle_dec ?a ?b] => destruct (Rle_dec a b)
    | |- context [Rlt_dec ?a ?b] => destruct (Rlt_dec a b)
    end; intros; try reflexivity; try discriminate; exfalso; lra.
Qed.

(** ** The loops of the kernel *)

Section KernelFacts.
Context {K : Scalar}.
Implicit Types (x a rest : list num) (i j k lo hi : nat).
Local Open Scope num_scope.

Lemma length_slice_fill lo hi (v : num) a : length (slice_fill lo hi v a) = length a.
Proof. apply length_imap. Qed.

Lemma lookup_slice_fill lo hi (v : num) a k :
  slice_fill lo hi v a !! k =
  (λ ak, if decide (lo ≤ k < hi)%nat then v else ak) <$> a !! k.
Proof. apply list_lookup_imap. Qed.

Lemma exceeds_lookup (x0 : num) x :
  exceeds x0 x → ∃ j xj, x !! j = Some xj ∧ (x0 <? xj) = true.
Proof.
  unfold exceeds. rewrite existsb_exists. intros (xj & Hin & Hlt).
  apply list_elem_of_In, list_elem_of_lookup in Hin as [j Hj]. eauto.
Qed.

Lemma reaches_lookup (x1 : num) x :
  reaches x1 x → ∃ j xj, x !! j = Some xj ∧ (x1 <=? xj) = true.
Proof.
  unfold reaches. rewrite existsb_exists. intros (xj & Hin & Hle).
  apply list_elem_of_In, list_elem_of_lookup in Hin as [j Hj]. eauto.
Qed.

Lemma monotonic_lookup x i j (xi xj : num) :
  monotonic x → (i ≤ j)%nat → x !! i = Some xi → x !! j = Some xj →
  (xi <=? xj) = true.
Proof.
  unfold monotonic. revert i j. induction x as [|x0 x IH]; intros i j Hm Hij Hi Hj.
  { discriminate. }
  cbn [monotonicb] in Hm. apply andb_prop in Hm as [Hhd Htl].
  destruct i as [|i].
  - injection Hi as <-. rewrite forallb_forall in Hhd.
    apply Hhd, list_elem_of_In, list_elem_of_lookup. eauto.
  - destruct j as [|j]; [lia|]. apply (IH i j); auto with lia.
Qed.

(** The first scan stops at the first sample that is not [<= x0], or runs
    off the grid when there is none. *)
Lemma scan_le_spec (x0 : num) rest i :
  match scan_le x0 rest i with
  | Some j =>
      ∃ n xn, j = (i + n)%nat ∧ rest !! n = Some xn ∧ (xn <=? x0) = false ∧
        ∀ m xm, (m < n)%nat → rest !! m = Some xm → (xm <=? x0) = true
  | None => ∀ m xm, rest !! m = Some xm → (xm <=? x0) = true
  end.
Proof.
  revert i. induction rest as [|xi rest IH]; intros i; simpl.
  { intros m xm Hm. discriminate. }
  destruct (xi <=? x0) eqn:Hxi.
  - specialize (IH (S i)). destruct (scan_le x0 rest (S i)) as [j|].
    + destruct IH as (n & xn & -> & Hn & Hstop & Hbefore).
      exists (S n), xn. split_and!; [lia|done|done|].
      intros [|m] xm Hm Hlook; [by injection Hlook as <-|].
      apply (Hbefore m); [lia|done].
    + intros [|m] xm Hlook; [by injection Hlook as <-|]. by apply (IH m).
  - exists 0%nat, xi. split_and!; [lia|done|done|]. intros m xm Hm. lia.
Qed.

(** The second loop stops at the first sample that is not [< x1]; until
    there it has stored one [sigmoid] per sample, and nothing else. *)
Lemma ramp_spec (x0 x1 y0 ydiff : num) rest i (tr : list num) :
  match ramp x0 x1 y0 ydiff rest i tr with
  | Some (tr', j) =>
      ∃ n xn, j = (i + n)%nat ∧ rest !! n = Some xn ∧ (xn <? x1) = false ∧
        (∀ m xm, (m < n)%nat → rest !! m = Some xm → (xm <? x1) = true) ∧
        length tr' = length tr ∧
        ∀ k, tr' !! k =
             if decide (i ≤ k < j)%nat
             then match rest !! (k - i)%nat with
                  | Some xk => (λ _, sigmoid x0 x1 y0 ydiff xk) <$> tr !! k
                  | None => tr !! k
                  end
             else tr !! k
  | None => ∀ m xm, rest !! m = Some xm → (xm <? x1) = true
  end.
Proof.
  revert i tr. induction rest as [|xi rest IH]; intros i tr; simpl.
  { intros m xm Hm. discriminate. }
  destruct (xi <? x1) eqn:Hxi.
  - specialize (IH (S i) (<[i := sigmoid x0 x1 y0 ydiff xi]> tr)).
    destruct (ramp x0 x1 y0 ydiff rest (S i) _) as [[tr' j]|].
    + destruct IH as (n & xn & -> & Hn & Hstop & Hbefore & Hlen & Hlook).
      exists (S n), xn. split_and!; [lia|done|done| |by rewrite Hlen, length_insert|].
      * intros [|m] xm Hm Hl; [by injection Hl as <-|]. apply (Hbefore m); [lia|done].
      * intros k. rewrite Hlook. clear Hlook.
        destruct (decide (k = i)) as [->|Hki].
        -- rewrite decide_False by lia. rewrite decide_True by lia.
           replace (i - i)%nat with 0%nat by lia. simpl.
           rewrite list_lookup_insert. case_decide as Hd.
           ++ destruct (lookup_lt_is_Some_2 tr i) as [v ->]; [lia|done].
           ++ rewrite (lookup_ge_None_2 tr i) by lia. done.
        -- rewrite list_lookup_insert_ne by done.
           destruct (decide (S i ≤ k < S i + n)%nat) as [Hin|Hout].
           ++ rewrite decide_True by lia.
              replace (k - i)%nat with (S (k - S i)) by lia. done.
           ++ rewrite decide_False by lia. done.
    + intros [|m] xm Hl; [by injection Hl as <-|]. by apply (IH m).
  - exists 0%nat, xi. split_and!; [lia|done|done| |done|].
    + intros m xm Hm. lia.
    + intros k. rewrite decide_False by lia. done.
Qed.

(** The loop of the derivative stops where [ramp] does. *)
Lemma ramp_prime_spec (x0 x1 ydiff : num) rest i (tr : list num) :
  match ramp_prime x0 x1 ydiff rest i tr with
  | Some tr' =>
      ∃ n xn, rest !! n = Some xn ∧ (xn <? x1) = false ∧
        (∀ m xm, (m < n)%nat → rest !! m = Some xm → (xm <? x1) = true) ∧
        length tr' = length tr ∧
        ∀ k, tr' !! k =
             if decide (i ≤ k < i + n)%nat
             then match rest !! (k - i)%nat with
                  | Some xk => (λ _, sigmoid_prime x0 x1 ydiff xk) <$> tr !! k
                  | None => tr !! k
                  end
             else tr !! k
  | None => ∀ m xm, rest !! m = Some xm → (xm <? x1) = true
  end.
Proof.
  revert i tr. induction rest as [|xi rest IH]; intros i tr; simpl.
  { intros m xm Hm. discriminate. }
  destruct (xi <? x1) eqn:Hxi.
  - specialize (IH (S i) (<[i := sigmoid_prime x0 x1 ydiff xi]> tr)).
    destruct (ramp_prime x0 x1 ydiff rest (S i) _) as [tr'|].
    + destruct IH as (n & xn & Hn & Hstop & Hbefore & Hlen & Hlook).
      exists (S n), xn. split_and!; [done|done| |by rewrite Hlen, length_insert|].
      * intros [|m] xm Hm Hl; [by injection Hl as <-|]. apply (Hbefore m); [lia|done].
      * intros k. rewrite Hlook. clear Hlook.
        destruct (decide (k = i)) as [->|Hki].
        -- rewrite decide_False by lia. rewrite decide_True by lia.
           replace (i - i)%nat with 0%nat by lia. simpl.
           rewrite list_lookup_insert. case_decide as Hd.
           ++ destruct (lookup_lt_is_Some_2 tr i) as [v ->]; [lia|done].
           ++ rewrite (lookup_ge_None_2 tr i) by lia. done.
        -- rewrite list_lookup_insert_ne by done.
           destruct (decide (S i ≤ k < S i + n)%nat) as [Hin|Hout].
           ++ rewrite decide_True by lia.
              replace (k - i)%nat with (S (k - S i)) by lia. done.
           ++ rewrite decide_False by lia. done.
    + intros [|m] xm Hl; [by injection Hl as <-|]. by apply (IH m).
  - exists 0%nat, xi. split_and!; [done|done| |done|].
    + intros m xm Hm. lia.
    + intros k. rewrite decide_False by lia. done.
Qed.

End KernelFacts.

(** ** The shape of a transition *)

Section Transition.
Context {K : Scalar} {O : ScalarOrder K}.
Implicit Types (x y : list num) (i j k : nat).
Local Open Scope num_scope.

(** On a monotonic grid the samples that are not [<= x0] are those from the
    first such sample on. *)
Lemma above_from x (x0 : num) i (xi : num) k (xk : num) :
  monotonic x → x !! i = Some xi → (xi <=? x0) = false →
  x !! k = Some xk → (xk <=? x0) = true → (k < i)%nat.
Proof.
  intros Hm Hi Hstop Hk Hle. destruct (decide (k < i)%nat) as [|Hge]; [done|].
  assert ((xi <=? xk) = true) as Hik by (apply (monotonic_lookup x i k); auto with lia).
  rewrite (nle_trans _ _ _ Hik Hle) in Hstop. discriminate.
Qed.

(** And those that are not [< x1] likewise. *)
Lemma below_until x (x1 : num) i (xi : num) k (xk : num) :
  monotonic x → x !! i = Some xi → (xi <? x1) = false →
  x !! k = Some xk → (xk <? x1) = true → (k < i)%nat.
Proof.
  intros Hm Hi Hstop Hk Hlt. destruct (decide (k < i)%nat) as [|Hge]; [done|].
  assert ((xi <=? xk) = true) as Hik by (apply (monotonic_lookup x i k); auto with lia).
  rewrite (nle_nlt_trans _ _ _ Hik Hlt) in Hstop. discriminate.
Qed.

(** The first scan succeeds on a grid that exceeds [x0]. *)
Lemma scan_le_exceeds x (x0 : num) :
  exceeds x0 x →
  ∃ i0 xi0, scan_le x0 x 0 = Some i0 ∧ x !! i0 = Some xi0 ∧
    (xi0 <=? x0) = false ∧
    ∀ m xm, (m < i0)%nat → x !! m = Some xm → (xm <=? x0) = true.
Proof.
  intros (j & xj & Hj & Hlt)%exceeds_lookup.
  pose proof (scan_le_spec x0 x 0) as Hs. destruct (scan_le x0 x 0) as [i0|].
  - destruct Hs as (n & xn & -> & Hn & Hstop & Hbefore). exists n, xn. auto.
  - specialize (Hs j xj Hj). rewrite (nlt_not_nle _ _ Hlt) in Hs. discriminate.
Qed.

(** From the sample the first scan stopped at, some sample is not [< x1]. *)
Lemma reaches_from x (x1 : num) i0 (xi0 : num) :
  monotonic x → reaches x1 x → x !! i0 = Some xi0 →
  ∃ m xm, drop i0 x !! m = Some xm ∧ (xm <? x1) = false.
Proof.
  intros Hm (j & xj & Hj & Hle)%reaches_lookup Hi0.
  destruct (decide (i0 ≤ j)%nat) as [Hij|Hji].
  - exists (j - i0)%nat, xj. rewrite lookup_drop.
    replace (i0 + (j - i0))%nat with j by lia. split; [done|].
    destruct (xj <? x1) eqn:Hlt; [|done].
    rewrite (nlt_not_nle _ _ Hlt) in Hle. discriminate.
  - exists 0%nat, xi0. rewrite lookup_drop, Nat.add_0_r. split; [done|].
    destruct (xi0 <? x1) eqn:Hlt; [|done].
    assert ((xj <=? xi0) = true) as Hji' by (apply (monotonic_lookup x j i0); auto with lia).
    pose proof (nle_trans _ _ _ Hle Hji') as Hle'.
    rewrite (nlt_not_nle _ _ Hlt) in Hle'. discriminate.
Qed.

(** What [_transition_function] returns on a monotonic grid that exceeds
    [x0] and reaches [x1]: the indices are where the samples leave
    [x <= x0] and [x < x1], and every entry of the array is written. *)
Lemma _transition_function_regions x (x0 x1 y0 y1 : num) :
  monotonic x → exceeds x0 x → reaches x1 x →
  ∃ y i0 i1,
    _transition_function x x0 x1 y0 y1 = Some (y, i0, i1) ∧
    length y = length x ∧ (i0 ≤ i1 < length x)%nat ∧
    (∀ k xk, x !! k = Some xk → (k < i0)%nat ↔ (xk <=? x0) = true) ∧
    (∀ k xk, x !! k = Some xk → (i0 ≤ k)%nat → (k < i1)%nat ↔ (xk <? x1) = true) ∧
    (∀ k xk, x !! k = Some xk →
       y !! k = Some (if decide (k < i0)%nat then y0
                      else if decide (k < i1)%nat then sigmoid x0 x1 y0 (y1 - y0) xk
                      else y1)).
Proof.
  intros Hm Hex Hre.
  destruct (scan_le_exceeds x x0 Hex) as (i0 & xi0 & Hscan & Hi0 & Hstop0 & Hbefore0).
  destruct (reaches_from x x1 i0 xi0 Hm Hre Hi0) as (m & xm & Hxm & Hnlt).
  unfold _transition_function. rewrite Hscan. simpl.
  pose proof (ramp_spec x0 x1 y0 (y1 - y0) (drop i0 x) i0
                (slice_fill 0 i0 y0 (np_empty_like x))) as Hr.
  destruct (ramp _ _ _ _ _ _ _) as [[tr i1]|]; simpl.
  2:{ rewrite (Hr m xm Hxm) in Hnlt. discriminate. }
  destruct Hr as (n & xn & -> & Hn & Hstop1 & Hbefore1 & Hlen & Hlook).
  rewrite lookup_drop in Hn.
  assert (length tr = length x) as Hlen'.
  { rewrite Hlen, length_slice_fill. apply length_replicate. }
  eexists _, i0, (i0 + n)%nat. split; [done|].
  split_and!.
  - by rewrite length_slice_fill.
  - lia.
  - apply lookup_lt_Some in Hn. lia.
  - intros k xk Hk. split.
    + intros Hlt. by apply (Hbefore0 k).
    + intros Hle. by apply (above_from x x0 i0 xi0 k xk).
  - intros k xk Hk Hge. split.
    + intros Hlt. apply (Hbefore1 (k - i0)%nat); [lia|].
      rewrite lookup_drop. by replace (i0 + (k - i0))%nat with k by lia.
    + intros Hlt. by apply (below_until x x1 (i0 + n) xn k xk).
  - intros k xk Hk. pose proof (lookup_lt_Some _ _ _ Hk) as Hklen.
    rewrite lookup_slice_fill, Hlook, Hlen'.
    rewrite lookup_drop, lookup_slice_fill. unfold np_empty_like.
    rewrite lookup_replicate_2 by done. simpl.
    destruct (decide (k < i0)%nat) as [Hk0|Hk0].
    + rewrite decide_False by lia. simpl.
      rewrite decide_False by lia. rewrite decide_True by lia. done.
    + destruct (decide (k < i0 + n)%nat) as [Hk1|Hk1].
      * rewrite decide_True by lia.
        replace (i0 + (k - i0))%nat with k by lia. rewrite Hk. simpl.
        rewrite decide_False by lia. done.
      * rewrite decide_False by lia. simpl. rewrite decide_True by lia. done.
Qed.

(** The derivative runs the same two scans. *)
Lemma transition_function_derivative_returns x (x0 x1 y0 y1 : num) :
  monotonic x → exceeds x0 x → reaches x1 x →
  ∃ y', transition_function_derivative x x0 x1 y0 y1 = Some y' ∧
        length y' = length x.
Proof.
  intros Hm Hex Hre.
  destruct (scan_le_exceeds x x0 Hex) as (i0 & xi0 & Hscan & Hi0 & Hstop0 & Hbefore0).
  destruct (reaches_from x x1 i0 xi0 Hm Hre Hi0) as (m & xm & Hxm & Hnlt).
  unfold transition_function_derivative. rewrite Hscan. simpl.
  pose proof (ramp_prime_spec x0 x1 (y1 - y0) (drop i0 x) i0 (np_zeros_like x)) as Hr.
  destruct (ramp_prime _ _ _ _ _ _) as [tr|]; simpl.
  2:{ rewrite (Hr m xm Hxm) in Hnlt. discriminate. }
  destruct Hr as (n & xn & Hn & Hstop1 & Hbefore1 & Hlen & Hlook).
  exists tr. split; [done|]. rewrite Hlen. apply length_replicate.
Qed.

(** When no sample leaves [x <= x0], or none leaves [x < x1], a scan reads
    past the end. *)
Lemma scan_le_all (x0 : num) rest i :
  Forall (λ xk, (xk <=? x0) = true) rest → scan_le x0 rest i = None.
Proof.
  intros Hall. pose proof (scan_le_spec x0 rest i) as Hs.
  destruct (scan_le x0 rest i) as [j|]; [|done].
  destruct Hs as (n & xn & _ & Hn & Hstop & _).
  rewrite Forall_lookup in Hall. rewrite (Hall n xn Hn) in Hstop. discriminate.
Qed.

Lemma ramp_all (x0 x1 y0 ydiff : num) rest i (tr : list num) :
  Forall (λ xk, (xk <? x1) = true) rest → ramp x0 x1 y0 ydiff rest i tr = None.
Proof.
  intros Hall. pose proof (ramp_spec x0 x1 y0 ydiff rest i tr) as Hs.
  destruct (ramp x0 x1 y0 ydiff rest i tr) as [[tr' j]|]; [|done].
  destruct Hs as (n & xn & _ & Hn & Hstop & _).
  rewrite Forall_lookup in Hall. rewrite (Hall n xn Hn) in Hstop. discriminate.
Qed.

Lemma ramp_prime_all (x0 x1 ydiff : num) rest i (tr : list num) :
  Forall (λ xk, (xk <? x1) = true) rest → ramp_prime x0 x1 ydiff rest i tr = None.
Proof.
  intros Hall. pose proof (ramp_prime_spec x0 x1 ydiff rest i tr) as Hs.
  destruct (ramp_prime x0 x1 ydiff rest i tr) as [tr'|]; [|done].
  destruct Hs as (n & xn & Hn & Hstop & _).
  rewrite Forall_lookup in Hall. rewrite (Hall n xn Hn) in Hstop. discriminate.
Qed.

End Transition.

(** ** Bounds of the scans *)

Section Scans.
Context {K : Scalar} {O : ScalarOrder K}.
Implicit Types (x y : list num) (i j k : nat).
Local Open Scope num_scope.


Lemma scan_ramp_all (x0 x1 y0 y1 : num) x :
  Forall (λ xk, (xk <? x1) = true) x →
  _transition_function x x0 x1 y0 y1 = None ∧
  transition_function_derivative x x0 x1 y0 y1 = None.
Proof.
  intros Hall. unfold _transition_function, transition_function_derivative.
  destruct (scan_le x0 x 0) as [i0|]; simpl; [|done].
  rewrite ramp_all, ramp_prime_all by (by apply Forall_drop). done.
Qed.

(** C9.  On a monotonic grid with a sample strictly above [x0] and a sample
    at or above [x1], the scans of [_transition_function] and of
    [transition_function_derivative] never read past the end: both return,
    and the indices found lie inside the grid.  When every sample is
    [<= x0], or every sample is [< x1], a scan reads [x[len(x)]] (modelled
    as [None]). *)
Theorem boundary_scans_in_bounds x (x0 x1 y0 y1 : num) :
  (monotonic x → exceeds x0 x → reaches x1 x →
     (∃ y i0 i1, _transition_function x x0 x1 y0 y1 = Some (y, i0, i1) ∧
                 (i0 ≤ i1 < length x)%nat) ∧
     is_Some (transition_function_derivative x x0 x1 y0 y1)) ∧
  (Forall (λ xk, (xk <=? x0) = true) x →
     _transition_function x x0 x1 y0 y1 = None ∧
     transition_function_derivative x x0 x1 y0 y1 = None) ∧
  (Forall (λ xk, (xk <? x1) = true) x →
     _transition_function x x0 x1 y0 y1 = None ∧
     transition_function_derivative x x0 x1 y0 y1 = None).
Proof.
  split_and!.
  - intros Hm Hex Hre. split.
    + destruct (_transition_function_regions x x0 x1 y0 y1 Hm Hex Hre)
        as (y & i0 & i1 & Heq & _ & Hidx & _).
      exists y, i0, i1. auto.
    + destruct (transition_function_derivative_returns x x0 x1 y0 y1 Hm Hex Hre)
        as (y' & Heq & _).
      rewrite Heq. eauto.
  - intros Hall. unfold _transition_function, transition_function_derivative.
    rewrite (scan_le_all x0 x 0 Hall). done.
  - apply scan_ramp_all.
Qed.

End Scans.

(** A grid that spans both boundaries, and two that do not. *)
Lemma boundary_scans_in_bounds_witness :
  (∃ y i0 i1,
     _transition_function (K := double) [0; 0.25; 0.5; 0.75; 1]%float
       0.125%float 0.875%float 0%float 1%float = Some (y, i0, i1) ∧
     (i0 ≤ i1 < 5)%nat) ∧
  _transition_function (K := double) [0; 0.25; 0.5]%float
    0.5%float 0.875%float 0%float 1%float = None ∧
  _transition_function (K := double) [0; 0.25; 0.5]%float
    0.125%float 0.875%float 0%float 1%float = None.
Proof.
  pose proof (boundary_scans_in_bounds (K := double) [0; 0.25; 0.5; 0.75; 1]%float
                0.125%float 0.875%float 0%float 1%float) as (Hin & _ & _).
  pose proof (boundary_scans_in_bounds (K := double) [0; 0.25; 0.5]%float
                0.5%float 0.875%float 0%float 1%float) as (_ & Hle & _).
  pose proof (boundary_scans_in_bounds (K := double) [0; 0.25; 0.5]%float
                0.125%float 0.875%float 0%float 1%float) as (_ & _ & Hlt).
  split_and!.
  - apply Hin; reflexivity.
  - apply Hle. repeat constructor.
  - apply Hlt. repeat constructor.
Defined.

(** ** The transition function *)

Section TransitionContract.
Context {K : Scalar} {O : ScalarOrder K}.
Implicit Types (x y : list num) (i j k : nat).
Local Open Scope num_scope.

Lemma reaches_exceeds x (x0 x1 : num) :
  (x0 <? x1) = true → reaches x1 x → exceeds x0 x.
Proof.
  intros Hlt (j & xj & Hj & Hle)%reaches_lookup.
  unfold exceeds. rewrite existsb_exists. exists xj. split.
  - apply list_elem_of_In, list_elem_of_lookup. eauto.
  - by apply (nlt_nle_trans x0 x1 xj).
Qed.



End TransitionContract.



(** ** The overflow clamp *)

Section Clamp.
Context {K : Scalar}.
Implicit Types (x y rest : list num) (i j k : nat).
Local Open Scope num_scope.





End Clamp.

(** The threshold of binary64 lies below [ln (max double)], the bound from
    which the exponential overflows. *)
Lemma float_maxexp_below_overflow :
  (float_maxexp <? 0x1.62e42fefa39efp+9)%float = true.
Proof. reflexivity. Qed.

Section ClampTheorem.
Context {K : Scalar} {O : ScalarOrder K}.
Implicit Types (x y : list num) (i j k : nat).
Local Open Scope num_scope.


End ClampTheorem.


(** ** Pointwise form of the windows *)

Section Pointwise.
Context {K : Scalar} {O : ScalarOrder K}.
Implicit Types (x y : list num) (i j k : nat).
Local Open Scope num_scope.


(** The array of [_transition_function] as a function of the sample. *)
Lemma _transition_function_pointwise x (x0 x1 y0 y1 : num) :
  monotonic x → exceeds x0 x → reaches x1 x →
  ∃ y i0 i1,
    _transition_function x x0 x1 y0 y1 = Some (y, i0, i1) ∧
    length y = length x ∧
    ∀ k xk, x !! k = Some xk →
      y !! k = Some (if xk <=? x0 then y0
                     else if xk <? x1 then sigmoid x0 x1 y0 (y1 - y0) xk
                     else y1).
Proof.
  intros Hm Hex Hre.
  destruct (_transition_function_regions x x0 x1 y0 y1 Hm Hex Hre)
    as (y & i0 & i1 & Heq & Hlen & Hidx & Hi0 & Hi1 & Hy).
  exists y, i0, i1. split_and!; [done|done|].
  intros k xk Hk. rewrite (Hy k xk Hk).
  specialize (Hi0 k xk Hk). specialize (Hi1 k xk Hk).
  destruct (decide (k < i0)%nat) as [Hk0|Hk0].
  - by rewrite (proj1 Hi0 Hk0).
  - destruct (xk <=? x0) eqn:Hle; [assert (k < i0)%nat by (by apply Hi0); lia|].
    destruct (decide (k < i1)%nat) as [Hk1|Hk1].
    + rewrite (proj1 (Hi1 ltac:(lia)) Hk1). done.
    + destruct (xk <? x1) eqn:Hl; [assert (k < i1)%nat by (by apply Hi1; [lia|]); lia|done].
Qed.


End Pointwise.

(** ** The bump function as two transitions *)

Section Bump.
Context {K : Scalar} {O : ScalarOrder K}.
Implicit Types (x : list num) (k : nat).
Local Open Scope num_scope.




End Bump.



(** ** Monotonicity of the transition *)


Section ExactArithmetic.
Local Open Scope R_scope.

Lemma Rleb_true a b : Rleb a b = true ↔ a <= b.
Proof. unfold Rleb. destruct (Rle_dec a b); split; intros; (done || lra). Qed.

Lemma Rleb_false a b : Rleb a b = false ↔ b < a.
Proof. unfold Rleb. destruct (Rle_dec a b); split; intros; (done || lra). Qed.

Lemma Rltb_true a b : Rltb a b = true ↔ a < b.
Proof. unfold Rltb. destruct (Rlt_dec a b); split; intros; (done || lra). Qed.

Lemma Rltb_false a b : Rltb a b = false ↔ b <= a.
Proof. unfold Rltb. destruct (Rlt_dec a b); split; intros; (done || lra). Qed.








End ExactArithmetic.

(** ** Multiplication by one *)

Lemma Prim2SF_one : Prim2SF 1%float = S754_finite false 4503599627370496 (-52).
Proof. reflexivity. Qed.

Lemma shr_1_52 (m : positive) :
  SpecFloat.iter_pos shr_1 52
    {| shr_m := Zpos (m * 4503599627370496); shr_r := false; shr_s := false |}
  = {| shr_m := Zpos m; shr_r := false; shr_s := false |}.
Proof. rewrite !Pos.mul_xO_r, Pos.mul_1_r. reflexivity. Qed.

Lemma digits2_pos_52 (m : positive) :
  Zpos (digits2_pos (m * 4503599627370496)) = (Zpos (digits2_pos m) + 52)%Z.
Proof. rewrite !Pos.mul_xO_r, Pos.mul_1_r. cbn [digits2_pos]. lia. Qed.

(** The product of a binary64 number with 1.0 is exact: the mantissa is
    shifted left by 52 bits and rounded back without loss. *)
Lemma SF64mul_one_finite s m e :
  SpecFloat.bounded FloatOps.prec FloatOps.emax m e = true →
  SF64mul (S754_finite s m e) (S754_finite false 4503599627370496 (-52))
  = S754_finite s m e.
Proof.
  unfold SpecFloat.bounded, canonical_mantissa. intros [Hcan Hmax]%andb_prop.
  apply Z.eqb_eq in Hcan.
  unfold SF64mul, SFmul, binary_round_aux.
  unfold shr_fexp at 1. unfold Zdigits2. rewrite digits2_pos_52.
  replace (Z.pos (digits2_pos m) + 52 + (e + -52))%Z
    with (Z.pos (digits2_pos m) + e)%Z by lia.
  rewrite Hcan. replace (e - (e + -52))%Z with 52%Z by lia.
  cbn [shr shr_record_of_loc]. rewrite shr_1_52.
  cbn [shr_m loc_of_shr_record round_nearest_even].
  unfold shr_fexp, Zdigits2.
  replace (e + -52 + 52)%Z with e by lia.
  rewrite Hcan, Z.sub_diag. cbn [shr shr_record_of_loc shr_m].
  rewrite Hmax. by destruct s.
Qed.

Lemma float_mul_one (a : float) : (a * 1)%float = a.
Proof.
  rewrite <- (SF2Prim_Prim2SF (a * 1)), mul_spec, Prim2SF_one.
  rewrite <- (SF2Prim_Prim2SF a) at 2. f_equal.
  pose proof (Prim2SF_valid a) as Hv.
  destruct (Prim2SF a) as [s|s| |s m e]; simpl in *.
  - by destruct s.
  - by destruct s.
  - done.
  - by apply SF64mul_one_finite.
Qed.

#[export] Instance binary64_unit np_exp : ScalarUnit (binary64 np_exp).
Proof. split. apply float_mul_one. Qed.

#[export] Instance reals_unit : ScalarUnit reals.
Proof. split. apply Rmult_1_r. Qed.

(** ** Transition to a constant *)

Section ToConstant.
Context {K : Scalar} {O : ScalarOrder K} {U : ScalarUnit K}.
Implicit Types (a b f t : list num) (i j k lo hi : nat).
Local Open Scope num_scope.
Variable indefinite_integral : list num → list num → list num.






End ToConstant.

(** ** What a call leaves in memory *)

Section Frame.
Context {A : Type}.
Implicit Types (h : heap A) (l : loc) (v : list A).







End Frame.

Section ToConstantFrame.
Context {K : Scalar}.
Variable indefinite_integral : list num → list num → list num.
Implicit Types (h : heap num) (f t l : loc).





End ToConstantFrame.


Section ToConstantInMemory.
Context {K : Scalar}.
Variable indefinite_integral : list num → list num → list num.
Implicit Types (h : heap num) (f t l : loc).









End ToConstantInMemory.




(** ** The XOR codec *)

Section Codec.
Implicit Types (u c : list row) (a b r : row) (i j k m n w : nat).

Lemma length_bitwise_xor a b : length (bitwise_xor a b) = min (length a) (length b).
Proof. apply length_zip_with. Qed.

(** XOR with the same row twice gives the row back. *)
Lemma bitwise_xor_cancel a b :
  length b ≤ length a → bitwise_xor a (bitwise_xor a b) = b.
Proof.
  revert b. induction a as [|x a IH]; intros [|y b] Hlen; simpl in *; try done; [lia|].
  rewrite <- Z.lxor_assoc, Z.lxor_nilpotent, Z.lxor_0_l. f_equal. apply IH. lia.
Qed.

(** XOR keeps 64-bit lanes 64-bit: nothing wraps. *)
Lemma lxor_uint64 (x y : Z) : uint64 x → uint64 y → uint64 (Z.lxor x y).
Proof.
  unfold uint64. intros [Hx0 Hx] [Hy0 Hy].
  assert (0 ≤ Z.lxor x y)%Z as H0 by (by apply Z.lxor_nonneg).
  split; [done|].
  destruct (decide (Z.lxor x y = 0%Z)) as [->|Hnz]; [done|].
  apply Z.log2_lt_pow2; [lia|].
  pose proof (Z.log2_lxor x y Hx0 Hy0) as Hlog.
  assert (Z.log2 x < 64)%Z.
  { destruct (decide (x = 0%Z)) as [->|?]; [done|]. apply Z.log2_lt_pow2; lia. }
  assert (Z.log2 y < 64)%Z.
  { destruct (decide (y = 0%Z)) as [->|?]; [done|]. apply Z.log2_lt_pow2; lia. }
  lia.
Qed.

Lemma bitwise_xor_uint64 a b :
  Forall uint64 a → Forall uint64 b → Forall uint64 (bitwise_xor a b).
Proof.
  intros Ha. revert b. induction Ha as [|x a Hx Ha IH]; intros b Hb; [constructor|].
  destruct Hb as [|y b Hy Hb]; simpl; constructor; auto using lxor_uint64.
Qed.

Lemma for_each_None {S} (indices : list nat) (body : nat → S → option S) :
  foldl (λ acc i, acc ≫= body i) None indices = None.
Proof. induction indices as [|i l IH]; simpl; auto. Qed.

Lemma for_each_cons {S} i (indices : list nat) (body : nat → S → option S) (s : S) :
  for_each (i :: indices) body s = body i s ≫= for_each indices body.
Proof.
  unfold for_each. simpl. destruct (body i s) as [s'|]; simpl; [done|].
  apply for_each_None.
Qed.

Lemma for_each_snoc {S} i (indices : list nat) (body : nat → S → option S) (s : S) :
  for_each (indices ++ [i]) body s = for_each indices body s ≫= body i.
Proof. unfold for_each. by rewrite foldl_app. Qed.

(** One step, on indices in range. *)
Lemma xor_step_Some i u p r :
  u !! (i - 1) = Some p → u !! i = Some r →
  xor_step i u = Some (<[i := bitwise_xor p r]> u).
Proof. intros Hp Hr. unfold xor_step. by rewrite Hp, Hr. Qed.

(** The backward loop over [m, ..., 1]: rows [1..m] become the XOR with
    the row before them, as it was before the loop. *)
Lemma xor_backward m u :
  m < length u →
  ∃ e, for_each (reverse (seq 1 m)) xor_step u = Some e ∧
       length e = length u ∧
       ∀ k, e !! k =
            if decide (1 ≤ k ≤ m)
            then p ← u !! (k - 1); r ← u !! k; Some (bitwise_xor p r)
            else u !! k.
Proof.
  revert u. induction m as [|m IH]; intros u Hm.
  { exists u. split_and!; [done|done|]. intros k. by rewrite decide_False by lia. }
  rewrite seq_S, reverse_snoc, for_each_cons. simpl.
  destruct (lookup_lt_is_Some_2 u m) as [p Hp]; [lia|].
  destruct (lookup_lt_is_Some_2 u (S m)) as [r Hr]; [lia|].
  rewrite (xor_step_Some (S m) u p r) by (simpl; rewrite ?Nat.sub_0_r; done).
  simpl. destruct (IH (<[S m := bitwise_xor p r]> u)) as (e & He & Hlen & Hlook).
  { rewrite length_insert. lia. }
  exists e. split_and!; [done|by rewrite Hlen, length_insert|].
  intros k. rewrite Hlook. clear Hlook.
  destruct (decide (1 ≤ k ≤ m)) as [Hk|Hk].
  - rewrite decide_True by lia.
    rewrite !list_lookup_insert_ne by lia. done.
  - destruct (decide (k = S m)) as [->|Hne].
    + rewrite decide_True by lia. rewrite list_lookup_insert_eq by lia.
      replace (S m - 1) with m by lia. by rewrite Hp, Hr.
    + rewrite decide_False by lia. by rewrite list_lookup_insert_ne by lia.
Qed.

(** The forward loop over [1, ..., m]: rows [1..m] become the XOR with the
    row before them, as the loop has left it. *)
Lemma xor_forward m u :
  m < length u →
  ∃ d, for_each (seq 1 m) xor_step u = Some d ∧
       length d = length u ∧
       ∀ k, d !! k =
            if decide (1 ≤ k ≤ m)
            then p ← d !! (k - 1); r ← u !! k; Some (bitwise_xor p r)
            else u !! k.
Proof.
  induction m as [|m IH]; intros Hm.
  { exists u. split_and!; [done|done|]. intros k. by rewrite decide_False by lia. }
  destruct IH as (d & Hd & Hlen & Hlook); [lia|].
  rewrite seq_S, for_each_snoc, Hd. simpl.
  destruct (lookup_lt_is_Some_2 d m) as [p Hp]; [lia|].
  destruct (lookup_lt_is_Some_2 d (S m)) as [r Hr]; [lia|].
  assert (u !! S m = Some r) as Hr'.
  { rewrite Hlook in Hr. by rewrite decide_False in Hr by lia. }
  rewrite (xor_step_Some (S m) d p r) by (simpl; rewrite ?Nat.sub_0_r; done).
  exists (<[S m := bitwise_xor p r]> d).
  split_and!; [done|by rewrite length_insert|].
  intros k. destruct (decide (k = S m)) as [->|Hne].
  - rewrite decide_True by lia. rewrite list_lookup_insert_eq by lia.
    replace (S m - 1) with m by lia.
    rewrite list_lookup_insert_ne by lia. by rewrite Hp, Hr'.
  - rewrite list_lookup_insert_ne by lia. rewrite Hlook.
    destruct (decide (1 ≤ k ≤ m)) as [Hk|Hk].
    + rewrite decide_True by lia. by rewrite list_lookup_insert_ne by lia.
    + by rewrite decide_False by lia.
Qed.

(** What [xor_timeseries] returns: the first row, then each row XORed with
    the original row before it. *)
Lemma xor_timeseries_spec c :
  ∃ e, xor_timeseries c = Some e ∧ length e = length c ∧
       ∀ k, e !! k = match k with
                     | 0 => c !! 0
                     | S k' => p ← c !! k'; r ← c !! k; Some (bitwise_xor p r)
                     end.
Proof.
  unfold xor_timeseries. destruct c as [|r0 c].
  { exists []. split_and!; [done|done|]. intros [|k]; done. }
  destruct (xor_backward (length (r0 :: c) - 1) (r0 :: c)) as (e & He & Hlen & Hlook).
  { simpl. lia. }
  exists e. split_and!; [done|done|]. intros k. rewrite Hlook.
  destruct k as [|k]; [by rewrite decide_False by lia|].
  destruct (decide (1 ≤ S k ≤ length (r0 :: c) - 1)) as [Hk|Hk].
  - by replace (S k - 1) with k by lia.
  - rewrite (lookup_ge_None_2 (r0 :: c) (S k)) by (simpl in *; lia).
    by destruct ((r0 :: c) !! k).
Qed.

(** What [xor_timeseries_reverse] returns: the first row, then each row
    XORed with the restored row before it. *)
Lemma xor_timeseries_reverse_spec c :
  ∃ d, xor_timeseries_reverse c = Some d ∧ length d = length c ∧
       ∀ k, d !! k = match k with
                     | 0 => c !! 0
                     | S k' => p ← d !! k'; r ← c !! k; Some (bitwise_xor p r)
                     end.
Proof.
  unfold xor_timeseries_reverse. destruct c as [|r0 c].
  { exists []. split_and!; [done|done|]. intros [|k]; done. }
  destruct (xor_forward (length (r0 :: c) - 1) (r0 :: c)) as (d & Hd & Hlen & Hlook).
  { simpl. lia. }
  exists d. split_and!; [done|done|]. intros k. rewrite Hlook.
  destruct k as [|k]; [by rewrite decide_False by lia|].
  destruct (decide (1 ≤ S k ≤ length (r0 :: c) - 1)) as [Hk|Hk].
  - by replace (S k - 1) with k by lia.
  - rewrite (lookup_ge_None_2 (r0 :: c) (S k)) by (simpl in *; lia).
    by destruct (d !! k).
Qed.

(** Decoding an encoded series gives the series back. *)
Lemma decode_encode c w :
  Forall (λ r, length r = w) c →
  xor_timeseries c ≫= xor_timeseries_reverse = Some c.
Proof.
  intros Hrect. rewrite Forall_lookup in Hrect.
  destruct (xor_timeseries_spec c) as (e & He & Helen & Hek).
  destruct (xor_timeseries_reverse_spec e) as (d & Hd & Hdlen & Hdk).
  rewrite He. simpl. rewrite Hd. f_equal.
  apply list_eq. intros k. induction k as [|k IH].
  - by rewrite Hdk, Hek.
  - rewrite Hdk, IH, Hek.
    destruct (c !! k) as [p|] eqn:Hp; simpl.
    2:{ symmetry. apply lookup_ge_None_2. apply lookup_ge_None_1 in Hp. lia. }
    destruct (c !! S k) as [r|] eqn:Hr; simpl; [|done].
    rewrite bitwise_xor_cancel; [done|].
    rewrite (Hrect k p Hp), (Hrect (S k) r Hr). done.
Qed.

(** Encoding a decoded series gives the series back. *)
Lemma encode_decode c w :
  Forall (λ r, length r = w) c →
  xor_timeseries_reverse c ≫= xor_timeseries = Some c.
Proof.
  intros Hrect. rewrite Forall_lookup in Hrect.
  destruct (xor_timeseries_reverse_spec c) as (d & Hd & Hdlen & Hdk).
  destruct (xor_timeseries_spec d) as (e & He & Helen & Hek).
  rewrite Hd. simpl. rewrite He. f_equal.
  assert (∀ k p, d !! k = Some p → length p = w) as Hdrect.
  { intros k. induction k as [|k IH]; intros p Hp; rewrite Hdk in Hp.
    - by eapply Hrect.
    - destruct (d !! k) as [q|] eqn:Hq; simpl in Hp; [|done].
      destruct (c !! S k) as [r|] eqn:Hr; simpl in Hp; [|done].
      injection Hp as <-. rewrite length_bitwise_xor.
      rewrite (IH q eq_refl), (Hrect (S k) r Hr). lia. }
  apply list_eq. intros k. rewrite Hek. destruct k as [|k]; [by rewrite Hdk|].
  rewrite (Hdk (S k)).
  destruct (d !! k) as [q|] eqn:Hq; simpl.
  2:{ symmetry. apply lookup_ge_None_2. apply lookup_ge_None_1 in Hq. lia. }
  destruct (c !! S k) as [r|] eqn:Hr; simpl; [|done].
  rewrite bitwise_xor_cancel; [done|].
  rewrite (Hdrect k q Hq), (Hrect (S k) r Hr). done.
Qed.

(** On a single row neither loop runs. *)
Lemma xor_single_row r :
  xor_timeseries [r] = Some [r] ∧ xor_timeseries_reverse [r] = Some [r].
Proof. done. Qed.

(** In memory, each function leaves in [c] what it computes from [c]. *)
Lemma xor_timeseries_mem_eq (h : heap row) l c :
  h !! l = Some c →
  xor_timeseries_mem l h =
  match xor_timeseries c with
  | Some e => (Some l, <[l := e]> h)
  | None => (None, h)
  end.
Proof.
  intros Hl. unfold xor_timeseries_mem, bind, load, lift. rewrite Hl.
  destruct (xor_timeseries c); [|done]. unfold store. by rewrite Hl.
Qed.

Lemma xor_timeseries_reverse_mem_eq (h : heap row) l c :
  h !! l = Some c →
  xor_timeseries_reverse_mem l h =
  match xor_timeseries_reverse c with
  | Some e => (Some l, <[l := e]> h)
  | None => (None, h)
  end.
Proof.
  intros Hl. unfold xor_timeseries_reverse_mem, bind, load, lift. rewrite Hl.
  destruct (xor_timeseries_reverse c); [|done]. unfold store. by rewrite Hl.
Qed.

(** C1.  For a time series [c] whose rows all have [w] lanes: decoding the
    encoded series gives [c] back, and so does encoding the decoded series,
    lane for lane (for every number of rows, two or more among them); run in
    place on the buffer holding [c], encode then decode, and decode then
    encode, return the buffer and leave the heap as it was; on a series of
    exactly one row, both functions return it unchanged. *)
Theorem xor_round_trip c w :
  Forall (λ r, length r = w) c →
  (2 ≤ length c →
     xor_timeseries c ≫= xor_timeseries_reverse = Some c ∧
     xor_timeseries_reverse c ≫= xor_timeseries = Some c ∧
     ∀ (h : heap row) l, h !! l = Some c →
       bind (xor_timeseries_mem l) xor_timeseries_reverse_mem h = (Some l, h) ∧
       bind (xor_timeseries_reverse_mem l) xor_timeseries_mem h = (Some l, h)) ∧
  (length c = 1 →
     xor_timeseries c = Some c ∧ xor_timeseries_reverse c = Some c ∧
     ∀ (h : heap row) l, h !! l = Some c →
       xor_timeseries_mem l h = (Some l, h) ∧
       xor_timeseries_reverse_mem l h = (Some l, h)).
Proof.
  intros Hrect. split.
  - intros _. pose proof (decode_encode c w Hrect) as Hde.
    pose proof (encode_decode c w Hrect) as Hed.
    split_and!; [done|done|]. intros h l Hl. split.
    + unfold bind at 1. rewrite (xor_timeseries_mem_eq h l c Hl).
      destruct (xor_timeseries c) as [e|]; [|done]. simpl in Hde.
      rewrite (xor_timeseries_reverse_mem_eq _ l e) by apply lookup_insert_eq.
      rewrite Hde, insert_insert_eq. by rewrite insert_id.
    + unfold bind at 1. rewrite (xor_timeseries_reverse_mem_eq h l c Hl).
      destruct (xor_timeseries_reverse c) as [d|]; [|done]. simpl in Hed.
      rewrite (xor_timeseries_mem_eq _ l d) by apply lookup_insert_eq.
      rewrite Hed, insert_insert_eq. by rewrite insert_id.
  - intros Hone. destruct c as [|r [|??]]; try done.
    destruct (xor_single_row r) as [He Hd].
    split_and!; [done|done|]. intros h l Hl.
    rewrite (xor_timeseries_mem_eq h l [r] Hl), (xor_timeseries_reverse_mem_eq h l [r] Hl).
    rewrite He, Hd. by rewrite insert_id.
Qed.

End Codec.

(** Three time steps of two lanes each. *)
Lemma xor_round_trip_witness :
  xor_timeseries [[1; 2]; [3; 4]; [5; 6]]%Z = Some [[1; 2]; [2; 6]; [6; 2]]%Z ∧
  xor_timeseries [[1; 2]; [3; 4]; [5; 6]]%Z ≫= xor_timeseries_reverse
  = Some [[1; 2]; [3; 4]; [5; 6]]%Z ∧
  xor_timeseries_reverse [[1; 2]; [3; 4]; [5; 6]]%Z ≫= xor_timeseries
  = Some [[1; 2]; [3; 4]; [5; 6]]%Z.
Proof.
  destruct (xor_round_trip [[1; 2]; [3; 4]; [5; 6]]%Z 2) as [Htwo _].
  { repeat constructor. }
  destruct Htwo as (Hde & Hed & _); [simpl; lia|].
  split_and!; [reflexivity|exact Hde|exact Hed].
Defined.

(** ** Fletcher-32 *)

Section Fletcher.
Local Open Scope Z_scope.
Implicit Types (data block bytes : list Z) (acc : Z * Z) (c d k : Z).

Lemma view_uint16_even (n : nat) bytes :
  length bytes = (2 * n)%nat →
  ∃ data, view_uint16 bytes = Some data ∧ length data = n.
Proof.
  revert bytes. induction n as [|n IH]; intros bytes Hlen.
  { destruct bytes; [|done]. by exists []. }
  destruct bytes as [|lo [|hi rest]]; simpl in Hlen; try lia.
  destruct (IH rest) as (data & Hdata & Hn); [lia|].
  exists ((lo + 256 * hi) :: data). simpl. rewrite Hdata. simpl. auto.
Qed.

Lemma take_min {A} (n : nat) (l : list A) : take (n `min` length l) l = take n l.
Proof.
  destruct (decide (n ≤ length l)%nat) as [Hle|Hgt].
  - by rewrite Nat.min_l by done.
  - rewrite Nat.min_r by lia. rewrite !take_ge by lia. done.
Qed.

(** The inner loop adds up the next [n] halfwords. *)
Lemma block_loop_spec (n : nat) data (j : nat) c0 c1 :
  (j + n ≤ length data)%nat →
  block_loop n data j c0 c1 =
  Some ((j + n)%nat,
        (foldl accumulate (c0, c1) (take n (drop j data))).1,
        (foldl accumulate (c0, c1) (take n (drop j data))).2).
Proof.
  revert j c0 c1. induction n as [|n IH]; intros j c0 c1 Hlen; simpl.
  { by rewrite Nat.add_0_r. }
  destruct (lookup_lt_is_Some_2 data j) as [d Hd]; [lia|].
  rewrite Hd. simpl. rewrite IH by lia.
  rewrite (drop_S data d j Hd). simpl.
  replace (j + S n)%nat with (S (j + n)) by lia. done.
Qed.

(** The outer loop folds the blocks. *)
Lemma fletcher32_loop_spec (fuel fuel' block_size : nat) data (j : nat) acc :
  (1 ≤ block_size)%nat → (j ≤ length data)%nat →
  (length data - j ≤ fuel)%nat → (length data - j ≤ fuel')%nat →
  fletcher32_loop fuel block_size data j acc.1 acc.2 =
  Some (foldl (λ acc block, reduce (foldl accumulate acc block)) acc
          (blocks_of fuel' block_size (drop j data))).
Proof.
  intros Hbs. revert fuel' j acc.
  induction fuel as [|fuel IH]; intros fuel' j acc Hj Hfuel Hfuel'.
  - assert (j = length data) as -> by lia.
    simpl. rewrite decide_False by lia. rewrite drop_all.
    destruct fuel'; by destruct acc.
  - simpl. case_decide as Hjlt.
    + destruct fuel' as [|fuel']; [lia|].
      destruct (lookup_lt_is_Some_2 data j) as [d Hd]; [done|].
      rewrite block_loop_spec by lia. simpl.
      rewrite (drop_S data d j Hd). simpl. rewrite <- (drop_S data d j Hd).
      replace (block_size `min` (length data - j))%nat
        with (block_size `min` length (drop j data))%nat by (by rewrite length_drop).
      rewrite take_min.
      set (acc' := reduce (foldl accumulate (acc.1, acc.2) (take block_size (drop j data)))).
      rewrite (IH fuel' _ acc') by (rewrite ?length_drop; lia).
      rewrite length_drop. do 2 f_equal.
      * unfold acc'. by destruct acc.
      * rewrite drop_drop.
        destruct (decide (block_size ≤ length data - j)%nat) as [Hle|Hgt].
        -- by rewrite Nat.min_l by done.
        -- rewrite Nat.min_r by lia. rewrite !drop_ge by lia. done.
    + assert (j = length data) as -> by lia. rewrite drop_all.
      destruct fuel'; by destruct acc.
Qed.

Lemma reduce_range acc : 0 ≤ (reduce acc).1 ≤ 65534 ∧ 0 ≤ (reduce acc).2 ≤ 65534.
Proof.
  unfold reduce. simpl.
  pose proof (Z.mod_pos_bound acc.1 65535). pose proof (Z.mod_pos_bound acc.2 65535). lia.
Qed.

Lemma fold_blocks_range (step : Z * Z → Z → Z * Z) (bl : list (list Z)) acc :
  0 ≤ acc.1 ≤ 65534 ∧ 0 ≤ acc.2 ≤ 65534 →
  0 ≤ (foldl (λ acc block, reduce (foldl step acc block)) acc bl).1 ≤ 65534 ∧
  0 ≤ (foldl (λ acc block, reduce (foldl step acc block)) acc bl).2 ≤ 65534.
Proof.
  revert acc. induction bl as [|b bl IH]; intros acc Hacc; simpl; [done|].
  apply IH, reduce_range.
Qed.

Lemma shiftl_16_small c : 0 ≤ c ≤ 65534 → Z.shiftl c 16 mod 2 ^ 32 = Z.shiftl c 16.
Proof. intros Hc. rewrite Z.shiftl_mul_pow2 by lia. apply Z.mod_small. lia. Qed.

(** The code computes the algorithm of the specification. *)
Lemma fletcher32_halfwords_spec data :
  fletcher32_halfwords 360 data = Some (fletcher32_spec data).
Proof.
  unfold fletcher32_halfwords, fletcher32_spec, blocks.
  pose proof (fletcher32_loop_spec (length data) (length data) 360 data 0 (0, 0))
    as Hloop.
  cbn [fst snd] in Hloop. rewrite Hloop by lia. clear Hloop.
  rewrite drop_0. cbn [mbind option_bind].
  pose proof (fold_blocks_range accumulate (blocks_of (length data) 360 data) (0, 0))
    as Hrange.
  destruct (foldl _ _ _) as [c0 c1]. cbn [fst snd] in *.
  rewrite shiftl_16_small; [done|]. apply Hrange. lia.
Qed.

(** C3.  For a buffer of an even number of bytes, [fletcher32] views it as
    halfwords and returns what the algorithm of the specification returns
    on them: two 32-bit accumulators from 0, blocks of at most 360
    halfwords, [c0 += d] then [c1 += c0] for each halfword, both reduced
    modulo 65535 after every block, the last and shorter one included, and
    [(c1 << 16) | c0] at the end.  On the one halfword [0x0001] the result
    is [0x00010001]. *)
Theorem fletcher32_computes_spec bytes :
  Nat.even (length bytes) = true →
  (∃ data, view_uint16 bytes = Some data ∧
           length data = (length bytes / 2)%nat ∧
           fletcher32 bytes = Some (fletcher32_spec data)) ∧
  view_uint16 [1; 0] = Some [1] ∧
  fletcher32 [1; 0] = Some 0x00010001.
Proof.
  intros Heven. split_and!; [|done|done].
  apply Nat.even_spec in Heven as [n Hn].
  destruct (view_uint16_even n bytes Hn) as (data & Hdata & Hlen).
  exists data. split_and!; [done| |].
  - rewrite Hn, Hlen. symmetry. rewrite Nat.mul_comm. by apply Nat.div_mul.
  - unfold fletcher32. rewrite Hdata. simpl. apply fletcher32_halfwords_spec.
Qed.

End Fletcher.

(** The bytes of the halfwords [0x0102] and [0xFFFF]. *)
Lemma fletcher32_computes_spec_witness :
  ∃ data, view_uint16 [2; 1; 255; 255]%Z = Some data ∧
          fletcher32 [2; 1; 255; 255]%Z = Some (fletcher32_spec data).
Proof.
  destruct (fletcher32_computes_spec [2; 1; 255; 255]%Z) as [(data & Hview & _ & Heq) _].
  - reflexivity.
  - exists data. auto.
Defined.

(** ** No overflow within a block *)

Section NoOverflow.
Local Open Scope Z_scope.
Implicit Types (data block : list Z) (acc : Z * Z) (d k : Z).

(** After [k] additions into accumulators that started a block at most at
    65534, [c0 <= 65534 + 65535 k] and
    [c1 <= 65534 (k + 1) + 65535 k (k + 1) / 2]; as long as at most 360
    additions are made in all, neither sum passes [2^32 - 1], and the
    wrapping additions are exact. *)
Lemma accumulate_block_exact block k acc :
  Forall halfword block →
  0 ≤ k → k + Z.of_nat (length block) ≤ 360 →
  0 ≤ acc.1 ≤ 65534 + 65535 * k →
  0 ≤ acc.2 → 2 * acc.2 ≤ 2 * 65534 * (k + 1) + 65535 * k * (k + 1) →
  foldl accumulate acc block = foldl accumulate_exact acc block ∧
  ∀ n : nat,
    0 ≤ (foldl accumulate_exact acc (take n block)).1 ≤ 2 ^ 32 - 1 ∧
    0 ≤ (foldl accumulate_exact acc (take n block)).2 ≤ 2 ^ 32 - 1.
Proof.
  intros Hhw. revert k acc.
  induction Hhw as [|d block Hd Hhw IH]; intros k [c0 c1] Hk Hlen Hc0 Hc1 Hc1'; simpl in *.
  { split; [done|]. intros n. rewrite take_nil. simpl.
    assert (k * (k + 1) ≤ 360 * 361) by nia. lia. }
  unfold halfword in Hd.
  assert (k * (k + 1) ≤ 359 * 360) as Hkk by nia.
  assert (accumulate (c0, c1) d = accumulate_exact (c0, c1) d) as Hstep.
  { unfold accumulate, accumulate_exact, add32. simpl.
    rewrite (Z.mod_small (c0 + d)) by lia. rewrite Z.mod_small by lia. done. }
  rewrite Hstep.
  destruct (IH (k + 1) (accumulate_exact (c0, c1) d)) as [Heq Hbound];
    unfold accumulate_exact; simpl; try lia.
  split; [done|].
  intros [|n]; simpl; [lia|]. apply Hbound.
Qed.

(** A block of at most 360 halfwords, from accumulators at most 65534. *)
Lemma accumulate_block_360 block acc :
  (length block ≤ 360)%nat → Forall halfword block →
  0 ≤ acc.1 ≤ 65534 → 0 ≤ acc.2 ≤ 65534 →
  foldl accumulate acc block = foldl accumulate_exact acc block ∧
  ∀ n : nat,
    0 ≤ (foldl accumulate_exact acc (take n block)).1 ≤ 2 ^ 32 - 1 ∧
    0 ≤ (foldl accumulate_exact acc (take n block)).2 ≤ 2 ^ 32 - 1.
Proof.
  intros Hlen Hhw Hc0 Hc1. apply (accumulate_block_exact block 0); [done|lia..].
Qed.

Lemma view_uint16_halfword (bytes : list Z) data :
  Forall byte bytes → view_uint16 bytes = Some data → Forall halfword data.
Proof.
  revert data. induction bytes as [bytes IH] using (induction_ltof1 _ length).
  unfold ltof in IH. intros data Hbytes Hview.
  destruct bytes as [|lo [|hi rest]]; simpl in Hview.
  - injection Hview as <-. constructor.
  - discriminate.
  - apply fmap_Some in Hview as (data' & Hrest & ->).
    apply Forall_cons in Hbytes as [Hlo Hbytes].
    apply Forall_cons in Hbytes as [Hhi Hbytes].
    constructor.
    + unfold byte, halfword in *. lia.
    + apply (IH rest); [simpl; lia|done|done].
Qed.

Lemma blocks_of_360 (fuel : nat) data :
  Forall halfword data →
  Forall (λ block, (length block ≤ 360)%nat ∧ Forall halfword block)
    (blocks_of fuel 360 data).
Proof.
  revert data. induction fuel as [|fuel IH]; intros data Hhw; [constructor|].
  destruct data as [|d data]; [constructor|].
  cbn [blocks_of]. constructor.
  - split; [rewrite length_take; lia|by apply Forall_take].
  - apply IH. by apply Forall_drop.
Qed.

Lemma fold_blocks_exact (bl : list (list Z)) acc :
  Forall (λ block, (length block ≤ 360)%nat ∧ Forall halfword block) bl →
  0 ≤ acc.1 ≤ 65534 → 0 ≤ acc.2 ≤ 65534 →
  foldl (λ acc block, reduce (foldl accumulate acc block)) acc bl =
  foldl (λ acc block, reduce (foldl accumulate_exact acc block)) acc bl.
Proof.
  intros Hbl. revert acc.
  induction Hbl as [|b bl [Hlen Hhw] Hbl IH]; intros acc Hc0 Hc1; simpl; [done|].
  destruct (accumulate_block_360 b acc Hlen Hhw Hc0 Hc1) as [-> _].
  apply IH; apply reduce_range.
Qed.

(** On halfwords, the code returns the checksum of exact arithmetic. *)
Lemma fletcher32_halfwords_exact data :
  Forall halfword data →
  fletcher32_halfwords 360 data = Some (fletcher32_exact 360 data).
Proof.
  intros Hhw. rewrite fletcher32_halfwords_spec.
  unfold fletcher32_spec, fletcher32_exact, blocks.
  rewrite fold_blocks_exact; [done| |simpl; lia..].
  by apply blocks_of_360.
Qed.

(** C4.  In exact integer arithmetic, the sums of a block of at most 360
    halfwords, started from accumulators that are at most 65534 (as they are
    at the start of every block, after the reduction modulo 65535), never
    pass [2^32 - 1] at any point of the block, so the 32-bit additions of
    the code never wrap; the worst block (360 halfwords [0xFFFF] from
    [c0 = c1 = 65534]) ends at [c1 = 4282122074]; with 361 additions the
    same start gives [c1 = 4305845743 > 2^32 - 1], and the 32-bit sums
    differ from the exact ones.  Hence on every buffer the code returns the
    checksum of exact arithmetic, and with blocks of 361 it would not: 360
    zero halfwords and [0xFFFE] bring both accumulators to 65534, and 361
    halfwords [0xFFFF] then wrap [c1]. *)
Theorem fletcher32_no_overflow :
  (∀ block c0 c1 (n : nat),
     (length block ≤ 360)%nat → Forall halfword block →
     0 ≤ c0 ≤ 65534 → 0 ≤ c1 ≤ 65534 →
     0 ≤ (foldl accumulate_exact (c0, c1) (take n block)).1 ≤ 2 ^ 32 - 1 ∧
     0 ≤ (foldl accumulate_exact (c0, c1) (take n block)).2 ≤ 2 ^ 32 - 1 ∧
     foldl accumulate (c0, c1) block = foldl accumulate_exact (c0, c1) block) ∧
  foldl accumulate_exact (65534, 65534) (replicate 360 65535)
    = (23658134, 4282122074) ∧
  4282122074 ≤ 2 ^ 32 - 1 ∧
  foldl accumulate_exact (65534, 65534) (replicate 361 65535)
    = (23723669, 4305845743) ∧
  2 ^ 32 - 1 < 4305845743 ∧
  foldl accumulate (65534, 65534) (replicate 361 65535)
    = (23723669, 4305845743 - 2 ^ 32) ∧
  (∀ data, Forall halfword data →
     fletcher32_halfwords 360 data = Some (fletcher32_exact 360 data)) ∧
  (∀ (bytes : list Z) data, Forall byte bytes → view_uint16 bytes = Some data →
     fletcher32 bytes = Some (fletcher32_exact 360 data)) ∧
  (Forall halfword (replicate 360 0 ++ [65534] ++ replicate 361 65535) ∧
   fletcher32_halfwords 361 (replicate 360 0 ++ [65534] ++ replicate 361 65535)
     = Some 0xFE94FFFE ∧
   fletcher32_exact 361 (replicate 360 0 ++ [65534] ++ replicate 361 65535)
     = 0xFE95FFFE).
Proof.
  split_and!.
  - intros block c0 c1 n Hlen Hhw Hc0 Hc1.
    destruct (accumulate_block_360 block (c0, c1) Hlen Hhw Hc0 Hc1) as [Heq Hbound].
    destruct (Hbound n) as [H0 H1]. auto.
  - by vm_compute.
  - lia.
  - by vm_compute.
  - lia.
  - by vm_compute.
  - intros data Hhw. by apply fletcher32_halfwords_exact.
  - intros bytes data Hbytes Hview. unfold fletcher32. rewrite Hview. simpl.
    apply fletcher32_halfwords_exact. by eapply view_uint16_halfword.
  - apply Forall_app. split; [apply Forall_replicate; unfold halfword; lia|].
    apply Forall_app. split; [|apply Forall_replicate; unfold halfword; lia].
    constructor; [unfold halfword; lia|constructor].
  - by vm_compute.
  - by vm_compute.
Qed.

End NoOverflow.

(** * Further properties *)

(** ** The derivative of the transition *)

Section Derivative.
Context {K : Scalar} {O : ScalarOrder K}.
Implicit Types (x y : list num) (i j k : nat).
Local Open Scope num_scope.

(** The array of [transition_function_derivative] as a function of the
    sample. *)
Lemma transition_function_derivative_pointwise x (x0 x1 y0 y1 : num) :
  monotonic x → exceeds x0 x → reaches x1 x →
  ∃ y',
    transition_function_derivative x x0 x1 y0 y1 = Some y' ∧
    length y' = length x ∧
    ∀ k xk, x !! k = Some xk →
      y' !! k = Some (if xk <=? x0 then zero
                      else if xk <? x1 then sigmoid_prime x0 x1 (y1 - y0) xk
                      else zero).
Proof.
  intros Hm Hex Hre.
  destruct (scan_le_exceeds x x0 Hex) as (i0 & xi0 & Hscan & Hi0 & Hstop0 & Hbefore0).
  destruct (reaches_from x x1 i0 xi0 Hm Hre Hi0) as (m & xm & Hxm & Hnlt).
  unfold transition_function_derivative. rewrite Hscan. simpl.
  pose proof (ramp_prime_spec x0 x1 (y1 - y0) (drop i0 x) i0 (np_zeros_like x)) as Hr.
  destruct (ramp_prime _ _ _ _ _ _) as [tr|]; simpl.
  2:{ rewrite (Hr m xm Hxm) in Hnlt. discriminate. }
  destruct Hr as (n & xn & Hn & Hstop1 & Hbefore1 & Hlen & Hlook).
  rewrite lookup_drop in Hn.
  exists tr. split; [done|]. split.
  { rewrite Hlen. apply length_replicate. }
  intros k xk Hk. pose proof (lookup_lt_Some _ _ _ Hk) as Hklen.
  assert (tr !! k = Some (if decide (i0 ≤ k < i0 + n)%nat
                          then sigmoid_prime x0 x1 (y1 - y0) xk else zero)) as ->.
  { rewrite Hlook, lookup_drop. unfold np_zeros_like.
    rewrite lookup_replicate_2 by done.
    destruct (decide (i0 ≤ k < i0 + n)%nat) as [Hin|Hout]; [|done].
    replace (i0 + (k - i0))%nat with k by lia. by rewrite Hk. }
  destruct (xk <=? x0) eqn:Hle.
  { pose proof (above_from x x0 i0 xi0 k xk Hm Hi0 Hstop0 Hk Hle).
    by rewrite decide_False by lia. }
  assert (i0 ≤ k)%nat as Hk0.
  { destruct (decide (i0 ≤ k)%nat) as [|Hlt]; [done|].
    rewrite (Hbefore0 k xk ltac:(lia) Hk) in Hle. discriminate. }
  destruct (xk <? x1) eqn:Hl.
  - pose proof (below_until x x1 (i0 + n) xn k xk Hm Hn Hstop1 Hk Hl).
    by rewrite decide_True by lia.
  - destruct (decide (i0 ≤ k < i0 + n)%nat) as [Hin|Hout]; [|done].
    rewrite (Hbefore1 (k - i0)%nat) in Hl; [done|lia|].
    rewrite lookup_drop. by replace (i0 + (k - i0))%nat with k by lia.
Qed.


End Derivative.


(** ** The levels and the bounds of the bump function *)

Section BumpLevels.
Context {K : Scalar} {O : ScalarOrder K}.
Implicit Types (x : list num) (k : nat).
Local Open Scope num_scope.



End BumpLevels.



(** ** No cell is left uninitialised *)

Section Uninitialised.
Context {K : Scalar}.
Implicit Types (x a b : list num) (i j k m : nat).
Local Open Scope num_scope.

Lemma agree_below_slice_fill lo hi (v : num) a b :
  agree_below lo a b → agree_below hi (slice_fill lo hi v a) (slice_fill lo hi v b).
Proof.
  intros [Hlen Hk]. split; [by rewrite !length_slice_fill|].
  intros k Hlt. rewrite !lookup_slice_fill.
  destruct (decide (k < lo)%nat) as [Hlo|Hlo]; [by rewrite Hk|].
  destruct (decide (k < length a)%nat) as [Hin|Hout].
  - destruct (lookup_lt_is_Some_2 a k Hin) as [va ->].
    destruct (lookup_lt_is_Some_2 b k ltac:(lia)) as [vb ->]. simpl.
    by rewrite !decide_True by lia.
  - rewrite (lookup_ge_None_2 a k), (lookup_ge_None_2 b k) by lia. done.
Qed.

(** The second loop writes the same values at the same indices whatever the
    buffer held there. *)
Lemma agree_below_ramp (x0 x1 y0 ydiff : num) rest i a b :
  agree_below i a b →
  match ramp x0 x1 y0 ydiff rest i a, ramp x0 x1 y0 ydiff rest i b with
  | Some (a', j), Some (b', j') => j = j' ∧ agree_below j a' b'
  | None, None => True
  | _, _ => False
  end.
Proof.
  revert i a b. induction rest as [|xi rest IH]; intros i a b Hab; simpl; [done|].
  destruct (xi <? x1); [|done].
  apply IH. destruct Hab as [Hlen Hk]. split; [by rewrite !length_insert|].
  intros k Hlt. destruct (decide (k = i)) as [->|Hne].
  - rewrite !list_lookup_insert, Hlen. case_decide as Hd; [done|].
    rewrite (lookup_ge_None_2 a i), (lookup_ge_None_2 b i) by lia. done.
  - rewrite !list_lookup_insert_ne by done. apply Hk. lia.
Qed.

Lemma agree_below_length a b : agree_below (length a) a b → a = b.
Proof.
  intros [Hlen Hk]. apply list_eq. intros k.
  destruct (decide (k < length a)%nat); [by apply Hk|].
  rewrite (lookup_ge_None_2 a k), (lookup_ge_None_2 b k) by lia. done.
Qed.

Lemma agree_below_replicate n (u v : num) : agree_below 0 (replicate n u) (replicate n v).
Proof. split; [by rewrite !length_replicate|]. intros k Hk. lia. Qed.

Lemma ramp_fill_agree (x0 x1 y0 ydiff y1 : num) rest i a b :
  agree_below i a b →
  ('(tr, j) ← ramp x0 x1 y0 ydiff rest i a; Some (slice_fill j (length tr) y1 tr, j))
  = ('(tr, j) ← ramp x0 x1 y0 ydiff rest i b; Some (slice_fill j (length tr) y1 tr, j)).
Proof.
  intros Hab. pose proof (agree_below_ramp x0 x1 y0 ydiff rest i a b Hab) as Hr.
  destruct (ramp x0 x1 y0 ydiff rest i a) as [[a' j]|],
    (ramp x0 x1 y0 ydiff rest i b) as [[b' j']|]; simpl; try done.
  destruct Hr as [<- Hab'].
  pose proof (agree_below_slice_fill j (length a') y1 a' b' Hab') as Hfin.
  rewrite <- (length_slice_fill j (length a') y1 a') in Hfin at 1.
  apply agree_below_length in Hfin. rewrite Hfin. by destruct Hab' as [-> _].
Qed.

Lemma _transition_function_buffer x (x0 x1 y0 y1 : num) (u : num) :
  (i0 ← scan_le x0 x 0;
   '(transition, i1) ← ramp x0 x1 y0 (y1 - y0) (drop i0 x) i0
                         (slice_fill 0 i0 y0 (replicate (length x) u));
   Some (slice_fill i1 (length transition) y1 transition, i0, i1))
  = _transition_function x x0 x1 y0 y1.
Proof.
  unfold _transition_function, np_empty_like.
  destruct (scan_le x0 x 0) as [i0|]; simpl; [|done].
  pose proof (ramp_fill_agree x0 x1 y0 (y1 - y0) y1 (drop i0 x) i0 _ _
                (agree_below_slice_fill 0 i0 y0 _ _
                   (agree_below_replicate (length x) u uninit))) as Hr.
  destruct (ramp x0 x1 y0 _ _ _ (slice_fill 0 i0 y0 (replicate (length x) u)))
    as [[a j]|],
    (ramp x0 x1 y0 _ _ _ (slice_fill 0 i0 y0 (replicate (length x) uninit)))
    as [[b j']|]; simpl in *; congruence.
Qed.

Lemma bump_function_buffer x (x0 x1 x2 x3 y0 y12 y3 : num) (u : num) :
  (i ← scan_le x0 x 0;
   '(bump, i1) ← ramp x0 x1 y0 (y12 - y0) (drop i x) i
                   (slice_fill 0 i y0 (replicate (length x) u));
   i ← scan_le x2 (drop i1 x) i1;
   '(bump, i) ← ramp x2 x3 y12 (y3 - y12) (drop i x) i (slice_fill i1 i y12 bump);
   Some (slice_fill i (length bump) y3 bump))
  = bump_function x x0 x1 x2 x3 y0 y12 y3.
Proof.
  unfold bump_function, np_empty_like.
  destruct (scan_le x0 x 0) as [i0|]; simpl; [|done].
  pose proof (agree_below_ramp x0 x1 y0 (y12 - y0) (drop i0 x) i0 _ _
                (agree_below_slice_fill 0 i0 y0 _ _
                   (agree_below_replicate (length x) u uninit))) as Hr.
  destruct (ramp x0 x1 y0 _ _ _ (slice_fill 0 i0 y0 (replicate (length x) u)))
    as [[a i1]|],
    (ramp x0 x1 y0 _ _ _ (slice_fill 0 i0 y0 (replicate (length x) uninit)))
    as [[b j']|]; simpl; try done.
  destruct Hr as [<- Hab].
  destruct (scan_le x2 (drop i1 x) i1) as [i2|]; simpl; [|done].
  pose proof (ramp_fill_agree x2 x3 y12 (y3 - y12) y3 (drop i2 x) i2 _ _
                (agree_below_slice_fill i1 i2 y12 a b Hab)) as Hr'.
  destruct (ramp x2 x3 y12 _ _ _ (slice_fill i1 i2 y12 a)) as [[a' i3]|],
    (ramp x2 x3 y12 _ _ _ (slice_fill i1 i2 y12 b)) as [[b' j']|];
    simpl in *; congruence.
Qed.

(** X4.  Whatever [np.empty_like] leaves in the buffer, [_transition_function]
    and [bump_function] return the same result, on every grid and for all
    parameters: every cell of the returned array has been written (and a call
    that reads past the end does so either way). *)
Theorem no_cell_uninitialised (u : num) x (x0 x1 x2 x3 y0 y1 y12 y3 : num) :
  _transition_function (K := with_uninit K u) x x0 x1 y0 y1
  = _transition_function x x0 x1 y0 y1 ∧
  bump_function (K := with_uninit K u) x x0 x1 x2 x3 y0 y12 y3
  = bump_function x x0 x1 x2 x3 y0 y12 y3.
Proof.
  split.
  - exact (_transition_function_buffer x x0 x1 y0 y1 u).
  - exact (bump_function_buffer x x0 x1 x2 x3 y0 y12 y3 u).
Qed.

End Uninitialised.

(** ** What the codec stores *)

Section CodecContents.
Implicit Types (c e d rest : list row) (p r first : row) (k w : nat).

Lemma bitwise_xor_zero p r :
  length p = length r → bitwise_xor p r = replicate (length r) 0%Z ↔ p = r.
Proof.
  revert r. induction p as [|a p IH]; intros [|b r] Hlen; simpl in *; try done.
  split.
  - intros [= Hab Hpr]. apply Z.lxor_eq_0_iff in Hab as ->. f_equal.
    apply IH; [lia|done].
  - intros [= -> ->]. rewrite Z.lxor_nilpotent. f_equal. by apply IH.
Qed.

(** X5.  On every series [xor_timeseries] returns: it gives as many rows as
    it got, the first row as it was, and in place of each later row its XOR
    with the original row before it. *)
Theorem xor_timeseries_deltas c :
  ∃ e, xor_timeseries c = Some e ∧ length e = length c ∧
       e !! 0 = c !! 0 ∧
       ∀ k p r, c !! k = Some p → c !! S k = Some r →
                e !! S k = Some (bitwise_xor p r).
Proof.
  destruct (xor_timeseries_spec c) as (e & He & Hlen & Hk).
  exists e. split_and!; [done|done|apply (Hk 0)|].
  intros k p r Hp Hr. by rewrite (Hk (S k)), Hp, Hr.
Qed.

(** X6.  On every series [xor_timeseries_reverse] returns, and row [k] of
    the result is the XOR of the rows [0..k] it was given: the loop runs a
    prefix XOR over the time axis. *)
Theorem xor_timeseries_reverse_prefix first rest :
  ∃ d, xor_timeseries_reverse (first :: rest) = Some d ∧
       length d = S (length rest) ∧
       ∀ k, k ≤ length rest →
            d !! k = Some (foldl bitwise_xor first (take k rest)).
Proof.
  destruct (xor_timeseries_reverse_spec (first :: rest)) as (d & Hd & Hlen & Hk).
  exists d. split_and!; [done|done|].
  intros k. induction k as [|k IH]; intros Hle.
  { by rewrite (Hk 0). }
  rewrite (Hk (S k)), IH by lia. simpl.
  destruct (lookup_lt_is_Some_2 rest k) as [r Hr]; [lia|].
  rewrite Hr. simpl. by rewrite (take_S_r rest k r Hr), foldl_app.
Qed.

(** X7.  Both directions keep the shape and the range of the data: from a
    series of rows of [w] lanes, each a 64-bit word, they return as many
    rows, of [w] lanes, each a 64-bit word. *)
Theorem xor_codec_keeps_shape c w :
  Forall (λ r, length r = w ∧ Forall uint64 r) c →
  ∃ e d, xor_timeseries c = Some e ∧ xor_timeseries_reverse c = Some d ∧
         length e = length c ∧ length d = length c ∧
         Forall (λ r, length r = w ∧ Forall uint64 r) e ∧
         Forall (λ r, length r = w ∧ Forall uint64 r) d.
Proof.
  intros Hc. rewrite Forall_lookup in Hc.
  destruct (xor_timeseries_spec c) as (e & He & Helen & Hek).
  destruct (xor_timeseries_reverse_spec c) as (d & Hd & Hdlen & Hdk).
  exists e, d. split_and!; try done.
  - apply Forall_lookup. intros [|k] r Hr; rewrite Hek in Hr.
    { by apply (Hc 0). }
    destruct (c !! k) as [p|] eqn:Hp; simpl in Hr; [|done].
    destruct (c !! S k) as [q|] eqn:Hq; simpl in Hr; [|done].
    injection Hr as <-.
    destruct (Hc k p Hp) as [Hpw Hpu]. destruct (Hc (S k) q Hq) as [Hqw Hqu].
    split; [rewrite length_bitwise_xor; lia|by apply bitwise_xor_uint64].
  - apply Forall_lookup. intros k. induction k as [|k IH]; intros r Hr; rewrite Hdk in Hr.
    { by apply (Hc 0). }
    destruct (d !! k) as [p|] eqn:Hp; simpl in Hr; [|done].
    destruct (c !! S k) as [q|] eqn:Hq; simpl in Hr; [|done].
    injection Hr as <-.
    destruct (IH p eq_refl) as [Hpw Hpu]. destruct (Hc (S k) q Hq) as [Hqw Hqu].
    split; [rewrite length_bitwise_xor; lia|by apply bitwise_xor_uint64].
Qed.

(** X8.  In the encoded series a row after the first is all zeros exactly
    when the original row equals the original row before it: a time step
    that changes nothing is stored as zeros. *)
Theorem xor_timeseries_unchanged_rows c w e :
  Forall (λ r, length r = w) c → xor_timeseries c = Some e →
  ∀ k p r, c !! k = Some p → c !! S k = Some r →
    (e !! S k = Some (replicate w 0%Z) ↔ p = r).
Proof.
  intros Hrect He k p r Hp Hr. rewrite Forall_lookup in Hrect.
  destruct (xor_timeseries_spec c) as (e' & He' & _ & Hk).
  replace e with e' by congruence.
  specialize (Hk (S k)). cbv beta iota in Hk. rewrite Hp, Hr in Hk. simpl in Hk.
  pose proof (Hrect k p Hp) as Hpw. pose proof (Hrect (S k) r Hr) as Hrw.
  pose proof (bitwise_xor_zero p r ltac:(lia)) as Hz. rewrite Hrw in Hz.
  split.
  - intros He0. apply Hz.
    assert (Some (bitwise_xor p r) = Some (replicate w 0%Z)) as Heq
      by (etrans; [symmetry; exact Hk|exact He0]).
    by injection Heq.
  - intros Hpr. apply Hz in Hpr. etrans; [exact Hk|by rewrite Hpr].
Qed.

(** X9.  Both directions work in place: run on a buffer that holds the
    series [c], they return that same buffer, now holding the encoded (or
    decoded) series; no buffer is allocated and no other buffer changes.
    Run on a location that holds no buffer, they fail and leave the heap as
    it was. *)
Theorem xor_timeseries_mem_in_place (h : heap row) (l : loc) :
  (∀ c, h !! l = Some c →
     ∃ e d, xor_timeseries c = Some e ∧ xor_timeseries_reverse c = Some d ∧
       xor_timeseries_mem l h = (Some l, <[l := e]> h) ∧
       xor_timeseries_reverse_mem l h = (Some l, <[l := d]> h) ∧
       dom (<[l := e]> h) = dom h ∧ dom (<[l := d]> h) = dom h ∧
       ∀ l', l' ≠ l → <[l := e]> h !! l' = h !! l' ∧ <[l := d]> h !! l' = h !! l') ∧
  (h !! l = None →
     xor_timeseries_mem l h = (None, h) ∧ xor_timeseries_reverse_mem l h = (None, h)).
Proof.
  split.
  - intros c Hl.
    destruct (xor_timeseries_spec c) as (e & He & _).
    destruct (xor_timeseries_reverse_spec c) as (d & Hd & _).
    exists e, d.
    rewrite (xor_timeseries_mem_eq h l c Hl), (xor_timeseries_reverse_mem_eq h l c Hl).
    rewrite He, Hd.
    split_and!; try done.
    + apply dom_insert_lookup_L. eauto.
    + apply dom_insert_lookup_L. eauto.
    + intros l' Hne. by rewrite !lookup_insert_ne.
  - intros Hl. unfold xor_timeseries_mem, xor_timeseries_reverse_mem, bind, load.
    by rewrite Hl.
Qed.

End CodecContents.

(** Three rows of two lanes. *)
Lemma xor_codec_keeps_shape_witness :
  ∃ e d, xor_timeseries [[1; 2]; [3; 2]; [3; 7]]%Z = Some e ∧
         xor_timeseries_reverse [[1; 2]; [3; 2]; [3; 7]]%Z = Some d ∧
         length e = 3%nat ∧ length d = 3%nat.
Proof.
  destruct (xor_codec_keeps_shape [[1; 2]; [3; 2]; [3; 7]]%Z 2)
    as (e & d & He & Hd & Hel & Hdl & _).
  - repeat constructor; unfold uint64; lia.
  - exists e, d. auto.
Defined.

(** The second lane does not change in the first step, the first lane does
    not change in the second. *)
Lemma xor_timeseries_unchanged_rows_witness :
  xor_timeseries [[1; 2]; [1; 2]; [3; 7]]%Z = Some [[1; 2]; [0; 0]; [2; 5]]%Z ∧
  ([[1; 2]; [0; 0]; [2; 5]]%Z !! 1%nat = Some (replicate 2 0%Z) ↔ [1; 2]%Z = [1; 2]%Z).
Proof.
  split; [reflexivity|].
  apply (xor_timeseries_unchanged_rows [[1; 2]; [1; 2]; [3; 7]]%Z 2
           [[1; 2]; [0; 0]; [2; 5]]%Z); [repeat constructor|reflexivity..].
Defined.

(** A heap with one series of two rows. *)
Lemma xor_timeseries_mem_in_place_witness :
  xor_timeseries_mem 1%positive {[ 1%positive := [[1%Z]; [3%Z]] ]}
  = (Some 1%positive, <[ 1%positive := [[1%Z]; [2%Z]] ]> {[ 1%positive := [[1%Z]; [3%Z]] ]}) ∧
  xor_timeseries_mem 2%positive {[ 1%positive := [[1%Z]; [3%Z]] ]}
  = (None, {[ 1%positive := [[1%Z]; [3%Z]] ]}).
Proof.
  destruct (xor_timeseries_mem_in_place {[ 1%positive := [[1%Z]; [3%Z]] ]} 1%positive)
    as [Hin _].
  destruct (xor_timeseries_mem_in_place {[ 1%positive := [[1%Z]; [3%Z]] ]} 2%positive)
    as [_ Hout].
  split.
  - destruct (Hin [[1%Z]; [3%Z]] eq_refl) as (e & d & He & _ & Hmem & _).
    injection He as <-. exact Hmem.
  - apply Hout. reflexivity.
Defined.

(** ** The checksum in closed form *)

Section FletcherClosed.
Local Open Scope Z_scope.
Implicit Types (data block bytes l : list Z) (acc : Z * Z) (c d k : Z).

Lemma sum_halfwords_app l l' :
  sum_halfwords (l ++ l') = sum_halfwords l + sum_halfwords l'.
Proof. induction l as [|d l IH]; simpl; [done|]. rewrite IH. lia. Qed.

Lemma weighted_sum_app l l' :
  weighted_sum (l ++ l') =
  weighted_sum l + Z.of_nat (length l') * sum_halfwords l + weighted_sum l'.
Proof.
  induction l as [|d l IH]; [simpl; lia|].
  cbn [app weighted_sum sum_halfwords foldr length]. rewrite IH.
  fold (sum_halfwords l). rewrite length_app. lia.
Qed.

(** Without reduction, [c0] is the sum and [c1] the sum of the running
    sums. *)
Lemma foldl_accumulate_exact l acc :
  foldl accumulate_exact acc l =
  (acc.1 + sum_halfwords l,
   acc.2 + Z.of_nat (length l) * acc.1 + weighted_sum l).
Proof.
  revert acc. induction l as [|d l IH]; intros [a0 a1].
  { simpl. f_equal; lia. }
  cbn [foldl]. rewrite IH. unfold accumulate_exact.
  cbn [fst snd weighted_sum sum_halfwords foldr length]. fold (sum_halfwords l).
  f_equal; lia.
Qed.

Lemma mod_sum_idemp (A B C k : Z) :
  (A mod 65535 + k * (B mod 65535) + C) mod 65535 = (A + k * B + C) mod 65535.
Proof.
  rewrite (Z.mod_eq A 65535), (Z.mod_eq B 65535) by lia.
  replace (A - 65535 * (A / 65535) + k * (B - 65535 * (B / 65535)) + C)
    with (A + k * B + C + (- (A / 65535) - k * (B / 65535)) * 65535) by ring.
  apply Z_mod_plus_full.
Qed.

(** Reducing after every block does not change the sums modulo 65535. *)
Lemma fold_blocks_cong (fuel n : nat) data acc :
  (1 ≤ n)%nat → (length data ≤ fuel)%nat →
  let r := foldl (λ acc block, reduce (foldl accumulate_exact acc block)) acc
             (blocks_of fuel n data) in
  r.1 mod 65535 = (acc.1 + sum_halfwords data) mod 65535 ∧
  r.2 mod 65535
  = (acc.2 + Z.of_nat (length data) * acc.1 + weighted_sum data) mod 65535.
Proof.
  intros Hn. revert data acc.
  induction fuel as [|fuel IH]; intros data acc Hfuel.
  { destruct data; [|simpl in Hfuel; lia]. simpl. split; f_equal; lia. }
  destruct data as [|d data]; [simpl; split; f_equal; lia|].
  cbn [blocks_of foldl]. set (data' := d :: data) in *.
  destruct (IH (drop n data')
              (reduce (foldl accumulate_exact acc (take n data')))) as [H1 H2].
  { rewrite length_drop. unfold data' in *. simpl in *. lia. }
  cbv zeta. rewrite H1, H2. clear H1 H2.
  rewrite foldl_accumulate_exact. unfold reduce. cbn [fst snd].
  assert (sum_halfwords data'
          = sum_halfwords (take n data') + sum_halfwords (drop n data')) as ->
    by (by rewrite <- sum_halfwords_app, take_drop).
  assert (weighted_sum data'
          = weighted_sum (take n data')
            + Z.of_nat (length (drop n data')) * sum_halfwords (take n data')
            + weighted_sum (drop n data')) as ->
    by (by rewrite <- weighted_sum_app, take_drop).
  assert (Z.of_nat (length data')
          = Z.of_nat (length (take n data')) + Z.of_nat (length (drop n data'))) as ->
    by (by rewrite <- Nat2Z.inj_add, <- length_app, take_drop).
  split.
  - rewrite Zplus_mod_idemp_l. f_equal. lia.
  - rewrite mod_sum_idemp. f_equal. lia.
Qed.

Lemma fletcher32_exact_closed (n : nat) data :
  (1 ≤ n)%nat →
  let acc := foldl (λ acc block, reduce (foldl accumulate_exact acc block)) (0, 0)
               (blocks n data) in
  acc.1 = sum_halfwords data mod 65535 ∧ acc.2 = weighted_sum data mod 65535.
Proof.
  intros Hn. cbv zeta. unfold blocks.
  destruct (fold_blocks_cong (length data) n data (0, 0) Hn) as [H1 H2]; [done|].
  pose proof (fold_blocks_range accumulate_exact (blocks_of (length data) n data) (0, 0))
    as [Hr1 Hr2]; [simpl; lia|].
  cbv zeta in H1, H2. cbn [fst snd] in H1, H2.
  rewrite Z.mod_small in H1 by lia. rewrite Z.mod_small in H2 by lia.
  rewrite H1, H2. split; f_equal; lia.
Qed.

(** [(c1 << 16) | c0] puts [c1] above the 16 bits of [c0]. *)
Lemma lor_shiftl_16 c0 c1 :
  0 ≤ c0 < 65536 → 0 ≤ c1 → Z.lor (Z.shiftl c1 16) c0 = c1 * 65536 + c0.
Proof.
  intros Hc0 Hc1. rewrite Z.shiftl_mul_pow2 by lia.
  change (2 ^ 16) with 65536.
  assert (Z.land (c1 * 65536) c0 = 0) as Hland.
  { apply Z.bits_inj'. intros i Hi. rewrite Z.land_spec, Z.bits_0.
    destruct (decide (i < 16)) as [Hlt|Hge].
    - change 65536 with (2 ^ 16). rewrite Z.mul_pow2_bits_low by lia. done.
    - destruct (decide (c0 = 0)) as [->|Hnz]; [by rewrite Z.bits_0, andb_false_r|].
      rewrite (Z.bits_above_log2 c0 i); [by rewrite andb_false_r|lia|].
      assert (Z.log2 c0 < 16) by (apply Z.log2_lt_pow2; lia). lia. }
  rewrite <- Z.lxor_lor by done. symmetry. by apply Z.add_nocarry_lxor.
Qed.

Lemma fletcher32_exact_eq_closed (n : nat) data :
  (1 ≤ n)%nat → fletcher32_exact n data = fletcher32_closed data.
Proof.
  intros Hn. unfold fletcher32_exact, fletcher32_closed.
  destruct (fletcher32_exact_closed n data Hn) as [H1 H2]. cbv zeta in H1, H2.
  rewrite H1, H2.
  pose proof (Z.mod_pos_bound (sum_halfwords data) 65535).
  pose proof (Z.mod_pos_bound (weighted_sum data) 65535).
  apply lor_shiftl_16; lia.
Qed.

Lemma blocks_of_le (fuel n : nat) data :
  (n ≤ 360)%nat → Forall halfword data →
  Forall (λ block, (length block ≤ 360)%nat ∧ Forall halfword block)
    (blocks_of fuel n data).
Proof.
  intros Hn. revert data. induction fuel as [|fuel IH]; intros data Hhw; [constructor|].
  destruct data as [|d data]; [constructor|].
  cbn [blocks_of]. constructor.
  - split; [rewrite length_take; lia|by apply Forall_take].
  - apply IH. by apply Forall_drop.
Qed.

(** The loop with blocks of at most [n <= 360] halfwords. *)
Lemma fletcher32_halfwords_closed (n : nat) data :
  (1 ≤ n ≤ 360)%nat → Forall halfword data →
  fletcher32_halfwords n data = Some (fletcher32_closed data).
Proof.
  intros Hn Hhw. rewrite <- (fletcher32_exact_eq_closed n data) by lia.
  unfold fletcher32_halfwords, fletcher32_exact, blocks.
  pose proof (fletcher32_loop_spec (length data) (length data) n data 0 (0, 0))
    as Hloop.
  cbn [fst snd] in Hloop. rewrite Hloop by lia. clear Hloop.
  rewrite drop_0. cbn [mbind option_bind].
  rewrite fold_blocks_exact; [| |simpl; lia..].
  2:{ apply blocks_of_le; [lia|done]. }
  pose proof (fold_blocks_range accumulate_exact (blocks_of (length data) n data) (0, 0))
    as Hrange.
  destruct (foldl _ _ _) as [c0 c1]. cbn [fst snd] in *.
  rewrite shiftl_16_small; [done|]. apply Hrange. lia.
Qed.

(** X10.  On every buffer of an even number of bytes, [fletcher32] returns
    [(B mod 65535) * 65536 + (A mod 65535)], where [A] is the sum of the
    halfwords and [B] the sum in which the halfword at index [i] of [n]
    counts [n - i] times: the blocks and the 32-bit accumulators leave no
    trace in the result. *)
Theorem fletcher32_closed_form bytes data :
  Forall byte bytes → view_uint16 bytes = Some data →
  fletcher32 bytes
  = Some (weighted_sum data mod 65535 * 65536 + sum_halfwords data mod 65535).
Proof.
  intros Hbytes Hview. unfold fletcher32. rewrite Hview. simpl.
  apply (fletcher32_halfwords_closed 360); [lia|].
  by eapply view_uint16_halfword.
Qed.

(** X11.  The block size only has to stay within the overflow bound: with
    any block size from 1 to 360 the loop returns the checksum that the
    block size 360 of the code gives. *)
Theorem fletcher32_block_size_irrelevant (n : nat) data :
  (1 ≤ n ≤ 360)%nat → Forall halfword data →
  fletcher32_halfwords n data = fletcher32_halfwords 360 data.
Proof.
  intros Hn Hhw.
  rewrite (fletcher32_halfwords_closed n), (fletcher32_halfwords_closed 360); auto with lia.
Qed.

Lemma view_uint16_odd bytes :
  Nat.even (length bytes) = false → view_uint16 bytes = None.
Proof.
  induction bytes as [bytes IH] using (induction_ltof1 _ length).
  unfold ltof in IH. intros Hodd.
  destruct bytes as [|lo [|hi rest]]; [done|done|].
  cbn [view_uint16]. rewrite (IH rest); [done|simpl; lia|done].
Qed.

(** X12.  [fletcher32] raises (modelled as [None]) exactly on a buffer of
    an odd number of bytes, which has no view as halfwords; on every other
    buffer it returns, and on the empty buffer it returns 0. *)
Theorem fletcher32_defined_on_even bytes :
  (is_Some (fletcher32 bytes) ↔ Nat.even (length bytes) = true) ∧
  fletcher32 [] = Some 0.
Proof.
  split; [|done]. split.
  - intros [v Hv]. destruct (Nat.even (length bytes)) eqn:Heven; [done|].
    unfold fletcher32 in Hv. by rewrite (view_uint16_odd bytes Heven) in Hv.
  - intros Heven. apply Nat.even_spec in Heven as [n Hn].
    destruct (view_uint16_even n bytes Hn) as (data & Hdata & _).
    unfold fletcher32. rewrite Hdata. simpl. rewrite fletcher32_halfwords_spec. eauto.
Qed.

(** X13.  Whatever the buffer holds, a checksum that [fletcher32] returns
    is [c1 * 65536 + c0] with both halves between 0 and 65534: it fits 32
    bits and neither half is ever [0xFFFF]. *)
Theorem fletcher32_range bytes v :
  fletcher32 bytes = Some v →
  ∃ c0 c1, v = c1 * 65536 + c0 ∧ 0 ≤ c0 ≤ 65534 ∧ 0 ≤ c1 ≤ 65534 ∧
           0 ≤ v < 2 ^ 32.
Proof.
  unfold fletcher32. intros Hv.
  destruct (view_uint16 bytes) as [data|]; simpl in Hv; [|done].
  rewrite fletcher32_halfwords_spec in Hv. injection Hv as <-.
  unfold fletcher32_spec, blocks.
  pose proof (fold_blocks_range accumulate (blocks_of (length data) 360 data) (0, 0))
    as Hrange.
  destruct (foldl _ _ _) as [c0 c1]. cbn [fst snd] in *.
  destruct Hrange as [H0 H1]; [lia|].
  exists c0, c1. rewrite lor_shiftl_16 by lia. lia.
Qed.

Lemma sum_halfwords_insert data (i : nat) d d' :
  data !! i = Some d →
  sum_halfwords (<[i := d']> data) = sum_halfwords data + (d' - d).
Proof.
  revert i. induction data as [|e data IH]; intros [|i] Hi; simpl in *; try done.
  - injection Hi as ->. lia.
  - fold (sum_halfwords data). fold (sum_halfwords (<[i := d']> data)).
    rewrite (IH i Hi). lia.
Qed.

Lemma weighted_sum_insert data (i : nat) d d' :
  data !! i = Some d →
  weighted_sum (<[i := d']> data)
  = weighted_sum data + (Z.of_nat (length data) - Z.of_nat i) * (d' - d).
Proof.
  revert i. induction data as [|e data IH]; intros [|i] Hi; try done.
  - injection Hi as ->. cbn [list_insert insert weighted_sum length]. simpl. lia.
  - simpl in Hi. change (<[S i := d']> (e :: data)) with (e :: <[i := d']> data).
    cbn [weighted_sum length]. rewrite length_insert, (IH i Hi). lia.
Qed.

(** X14.  Replacing one halfword [d] of the data by [d'] leaves the
    checksum as it was exactly when [d' - d] is a multiple of 65535: of all
    changes of a single halfword, only [0x0000] for [0xFFFF] and back go
    unnoticed. *)
Theorem fletcher32_single_halfword data (i : nat) d d' :
  Forall halfword data → data !! i = Some d → halfword d' →
  (fletcher32_halfwords 360 (<[i := d']> data) = fletcher32_halfwords 360 data
   ↔ (d' - d) mod 65535 = 0) ∧
  ((d' - d) mod 65535 = 0 ↔ d' = d ∨ (d = 0 ∧ d' = 65535) ∨ (d = 65535 ∧ d' = 0)).
Proof.
  intros Hhw Hi Hd'.
  assert (halfword d) as Hd.
  { rewrite Forall_lookup in Hhw. by apply (Hhw i). }
  assert (Forall halfword (<[i := d']> data)) as Hhw'.
  { by apply Forall_insert. }
  split.
  - rewrite !(fletcher32_halfwords_closed 360) by (done || lia).
    unfold fletcher32_closed.
    rewrite (sum_halfwords_insert data i d d' Hi), (weighted_sum_insert data i d d' Hi).
    set (A := sum_halfwords data). set (B := weighted_sum data).
    set (w := Z.of_nat (length data) - Z.of_nat i).
    pose proof (Z.mod_pos_bound A 65535). pose proof (Z.mod_pos_bound B 65535).
    pose proof (Z.mod_pos_bound (A + (d' - d)) 65535).
    pose proof (Z.mod_pos_bound (B + w * (d' - d)) 65535).
    split.
    + intros [= Heq].
      assert ((A + (d' - d)) mod 65535 = A mod 65535) as HA by lia.
      rewrite (Z.mod_eq (A + (d' - d)) 65535), (Z.mod_eq A 65535) in HA by lia.
      replace (d' - d) with (((A + (d' - d)) / 65535 - A / 65535) * 65535) by lia.
      apply Z_mod_mult.
    + intros Hz. apply Z.mod_divide in Hz as [q Hq]; [|lia].
      rewrite Hq.
      replace (B + w * (q * 65535)) with (B + (w * q) * 65535) by ring.
      by rewrite !Z_mod_plus_full.
  - unfold halfword in *. split.
    + intros Hz. apply Z.mod_divide in Hz as [q Hq]; [|lia].
      assert (q = 0 ∨ q = 1 ∨ q = -1) as [->|[->| ->]] by lia; lia.
    + intros [->|[[-> ->]|[-> ->]]]; [by rewrite Z.sub_diag|done|done].
Qed.

End FletcherClosed.

(** The halfwords [0x0102] and [0xFFFF]: [A = 65793] and [B = 66051]. *)
Lemma fletcher32_closed_form_witness :
  fletcher32 [2; 1; 255; 255]%Z = Some 0x02040102%Z.
Proof.
  apply (fletcher32_closed_form [2; 1; 255; 255]%Z [258; 65535]%Z).
  - repeat constructor; unfold byte; lia.
  - reflexivity.
Defined.

(** Blocks of one halfword. *)
Lemma fletcher32_block_size_irrelevant_witness :
  fletcher32_halfwords 1 [258; 65535; 7]%Z = fletcher32_halfwords 360 [258; 65535; 7]%Z.
Proof.
  apply (fletcher32_block_size_irrelevant 1 [258; 65535; 7]%Z); [lia|].
  repeat constructor; unfold halfword; lia.
Defined.

(** The checksum of two halfwords [0xFFFF] is 0. *)
Lemma fletcher32_range_witness :
  ∃ c0 c1, (0 = c1 * 65536 + c0 ∧ 0 ≤ c0 ≤ 65534 ∧ 0 ≤ c1 ≤ 65534 ∧ 0 ≤ 0 < 2 ^ 32)%Z.
Proof.
  apply (fletcher32_range [255; 255; 255; 255]%Z 0%Z). reflexivity.
Defined.

(** [0xFFFF] for [0x0000] in the middle of three halfwords. *)
Lemma fletcher32_single_halfword_witness :
  fletcher32_halfwords 360 (<[1%nat := 65535%Z]> [258; 0; 7]%Z)
  = fletcher32_halfwords 360 [258; 0; 7]%Z.
Proof.
  apply (fletcher32_single_halfword [258; 0; 7]%Z 1 0%Z 65535%Z).
  - repeat constructor; unfold halfword; lia.
  - reflexivity.
  - unfold halfword. lia.
  - reflexivity.
Defined.


(** ** The derivative, in exact arithmetic *)

Section ExactDerivative.
Local Open Scope R_scope.

Lemma maxexp_pos : 0 < @maxexp reals.
Proof.
  simpl. pose proof (ln_increasing 1 2 ltac:(lra) ltac:(lra)) as H. rewrite ln_1 in H. lra.
Qed.

Lemma exponent_derivative x0 x1 v :
  x0 < v < x1 →
  derivable_pt_lim (exponent_of (K := reals) x0 x1) v
    (let tau := (v - x0) / (x1 - x0) in
     ((- 1) / (tau * tau) - 1 / ((1 - tau) * (1 - tau))) * (1 / (x1 - x0))).
Proof.
  intros Hv.
  set (d := x1 - x0). assert (0 < d) as Hd by (unfold d; lra).
  assert (0 < (v - x0) / d) as Ht0 by (apply Rdiv_lt_0_compat; lra).
  assert ((v - x0) / d < 1) as Ht1.
  { apply (Rmult_lt_reg_r d); [done|].
    replace ((v - x0) / d * d) with (v - x0) by (field; lra). unfold d. lra. }
  assert (derivable_pt_lim ((id - fct_cte x0) / fct_cte d) v (/ d)) as Htau.
  { replace (/ d) with (((1 - 0) * fct_cte d v - 0 * (id - fct_cte x0)%F v) / (fct_cte d v)²).
    - apply derivable_pt_lim_div.
      + apply derivable_pt_lim_minus; [apply derivable_pt_lim_id|apply derivable_pt_lim_const].
      + apply derivable_pt_lim_const.
      + unfold fct_cte. lra.
    - unfold fct_cte, Rsqr. field. lra. }
  eapply derivable_pt_lim_ext with
    (f := (fct_cte 1 / ((id - fct_cte x0) / fct_cte d)
           - fct_cte 1 / (fct_cte 1 - (id - fct_cte x0) / fct_cte d))%F).
  { intros z. reflexivity. }
  cbv zeta. fold d.
  set (tau := (v - x0) / d) in *.
  replace ((-1 / (tau * tau) - 1 / ((1 - tau) * (1 - tau))) * (1 / d))
    with ((0 * tau - / d * 1) / tau² - (0 * (1 - tau) - (0 - / d) * 1) / (1 - tau)²).
  2:{ unfold Rsqr. field. lra. }
  set (tauF := ((id - fct_cte x0) / fct_cte d)%F) in *.
  change tau with (tauF v) at 1 2.
  change 1 with (fct_cte 1 v) at 1 3.
  change (1 - tau) with ((fct_cte 1 - tauF)%F v).
  apply derivable_pt_lim_minus.
  - apply (derivable_pt_lim_div (fct_cte 1) tauF v 0 (/ d));
      [apply derivable_pt_lim_const|done|].
    change (tauF v) with tau. lra.
  - apply (derivable_pt_lim_div (fct_cte 1) (fct_cte 1 - tauF)%F v 0 (0 - / d));
      [apply derivable_pt_lim_const| |].
    + apply derivable_pt_lim_minus; [apply derivable_pt_lim_const|done].
    + change ((fct_cte 1 - tauF)%F v) with (1 - tau). lra.
Qed.

Lemma unclamped_derivative x0 x1 y0 y1 v :
  x0 < v < x1 →
  derivable_pt_lim (unclamped x0 x1 y0 y1) v
    (let tau := (v - x0) / (x1 - x0) in
     let E := exp (1 / tau - 1 / (1 - tau)) in
     (- (y1 - y0)) * E * ((- 1) / (tau * tau) - 1 / ((1 - tau) * (1 - tau)))
       * (1 / (x1 - x0)) / ((1 + E) * (1 + E))).
Proof.
  intros Hv. pose proof (exponent_derivative x0 x1 v Hv) as He. cbv zeta in *.
  set (e' := (-1 / _ - 1 / _) * _) in *.
  change (1 / ((v - x0) / (x1 - x0)) - 1 / (1 - (v - x0) / (x1 - x0)))
    with (exponent_of (K := reals) x0 x1 v).
  set (eF := exponent_of (K := reals) x0 x1) in *.
  pose proof (exp_pos (eF v)) as HE.
  eapply derivable_pt_lim_ext with
    (f := (fct_cte y0 + fct_cte (y1 - y0) / (fct_cte 1 + comp exp eF))%F).
  { intros z. reflexivity. }
  match goal with |- derivable_pt_lim _ _ ?l =>
    replace l
      with (0 + (0 * (fct_cte 1 + comp exp eF)%F v
                 - (0 + exp (eF v) * e') * fct_cte (y1 - y0) v)
                / ((fct_cte 1 + comp exp eF)%F v)²)
  end.
  2:{ unfold e', plus_fct, comp, fct_cte, Rsqr. field.
      assert (0 < (v - x0) / (x1 - x0)) by (apply Rdiv_lt_0_compat; lra).
      assert (0 < x1 - x0) by lra.
      assert (x1 - x0 - (v - x0) ≠ 0) by lra.
      split_and!; try lra. }
  apply derivable_pt_lim_plus; [apply derivable_pt_lim_const|].
  apply derivable_pt_lim_div; [apply derivable_pt_lim_const| |].
  - apply derivable_pt_lim_plus; [apply derivable_pt_lim_const|].
    apply derivable_pt_lim_comp; [done|apply derivable_pt_lim_exp].
  - unfold plus_fct, comp, fct_cte. lra.
Qed.

Lemma exponent_near x0 x1 v eps :
  x0 < v < x1 → 0 < eps →
  ∃ a b, x0 <= a ∧ a < v ∧ v < b ∧ b <= x1 ∧
    ∀ w, a < w < b →
      Rabs (exponent_of (K := reals) x0 x1 w - exponent_of (K := reals) x0 x1 v) < eps.
Proof.
  intros Hv Heps.
  pose proof (derivable_continuous_pt _ v
                (exist _ _ (exponent_derivative x0 x1 v Hv))) as Hc.
  destruct (Hc eps Heps) as (alp & Halp & Hnear).
  exists (Rmax x0 (v - alp)), (Rmin x1 (v + alp)).
  split_and!.
  - apply Rmax_l.
  - apply Rmax_lub_lt; lra.
  - apply Rmin_glb_lt; lra.
  - apply Rmin_l.
  - intros w [Ha Hb].
    pose proof (Rmax_r x0 (v - alp)). pose proof (Rmin_r x1 (v + alp)).
    destruct (Req_dec w v) as [->|Hne].
    { rewrite Rminus_diag, Rabs_R0. lra. }
    apply Hnear. split.
    + split; [done|]. intros Heq. by apply Hne.
    + simpl. unfold Rdist. apply Rabs_def1; lra.
Qed.

Lemma transition_at_left x0 x1 y0 y1 w : w <= x0 → transition_at x0 x1 y0 y1 w = y0.
Proof.
  intros Hw. unfold transition_at. by rewrite (proj2 (Rleb_true w x0) Hw).
Qed.

Lemma transition_at_right x0 x1 y0 y1 w :
  x0 < x1 → x1 <= w → transition_at x0 x1 y0 y1 w = y1.
Proof.
  intros Hx Hw. unfold transition_at.
  rewrite (proj2 (Rleb_false w x0)) by lra.
  by rewrite (proj2 (Rltb_false w x1) Hw).
Qed.

Lemma transition_at_clamped x0 x1 y0 y1 w :
  x0 < w < x1 → @maxexp reals <= exponent_of (K := reals) x0 x1 w →
  transition_at x0 x1 y0 y1 w = y0.
Proof.
  intros Hw He. unfold transition_at, sigmoid.
  rewrite (proj2 (Rleb_false w x0)) by lra.
  rewrite (proj2 (Rltb_true w x1)) by lra.
  change (@nle reals) with Rleb. by rewrite (proj2 (Rleb_true _ _) He).
Qed.

Lemma transition_at_unclamped x0 x1 y0 y1 w :
  x0 < w < x1 → exponent_of (K := reals) x0 x1 w < @maxexp reals →
  transition_at x0 x1 y0 y1 w = unclamped x0 x1 y0 y1 w.
Proof.
  intros Hw He. unfold transition_at, sigmoid.
  rewrite (proj2 (Rleb_false w x0)) by lra.
  rewrite (proj2 (Rltb_true w x1)) by lra.
  change (@nle reals) with Rleb. by rewrite (proj2 (Rleb_false _ _) He).
Qed.

(** Just right of [x0] the exponent is above [maxexp]. *)
Lemma exponent_right_of_x0 x0 x1 w :
  x0 < x1 → x0 < w → w < x0 + (x1 - x0) / (@maxexp reals + 2) →
  w < x1 ∧ @maxexp reals <= exponent_of (K := reals) x0 x1 w.
Proof.
  intros Hx Hw Hnear. pose proof maxexp_pos as HP.
  set (P := @maxexp reals) in *. set (d := x1 - x0) in *.
  assert (0 < d) as Hd by (unfold d; lra).
  assert (0 < / (P + 2) < / 2) as [Hi0 Hi2].
  { split; [apply Rinv_0_lt_compat; lra|apply Rinv_lt_contravar; lra]. }
  assert (d / (P + 2) < d / 2) as Hlt.
  { unfold Rdiv. apply Rmult_lt_compat_l; lra. }
  split; [unfold d in *; lra|].
  unfold exponent_of. simpl. fold d.
  set (tau := (w - x0) / d).
  assert (0 < tau) as Ht0 by (apply Rdiv_lt_0_compat; lra).
  assert (tau < / (P + 2)) as Ht1.
  { apply (Rmult_lt_reg_r d); [done|].
    replace (tau * d) with (w - x0) by (unfold tau; field; lra).
    unfold Rdiv in Hnear. lra. }
  assert (P + 2 < / tau) as H1.
  { rewrite <- (Rinv_inv (P + 2)). apply Rinv_lt_contravar; [|done].
    apply Rmult_lt_0_compat; lra. }
  assert (/ (1 - tau) < 2) as H2.
  { rewrite <- (Rinv_inv 2). apply Rinv_lt_contravar; [|lra].
    apply Rmult_lt_0_compat; lra. }
  unfold Rdiv. lra.
Qed.

Lemma sigmoid_prime_reals (x0 x1 ydiff v : R) :
  sigmoid_prime (K := reals) x0 x1 ydiff v =
  if Rleb (@maxexp reals) (exponent_of (K := reals) x0 x1 v) then 0
  else
    let tau := (v - x0) / (x1 - x0) in
    let E := exp (1 / tau - 1 / (1 - tau)) in
    (- ydiff) * E * ((- 1) / (tau * tau) - 1 / ((1 - tau) * (1 - tau)))
      * (1 / (x1 - x0)) / ((1 + E) * (1 + E)).
Proof. reflexivity. Qed.

Lemma transition_at_derivative_off_x1 x0 x1 y0 y1 v :
  x0 < x1 → v ≠ x1 →
  (x0 < v < x1 → exponent_of (K := reals) x0 x1 v ≠ @maxexp reals) →
  derivable_pt_lim (transition_at x0 x1 y0 y1) v (transition_prime_at x0 x1 y0 y1 v).
Proof.
  intros Hx Hv1 Hthr. pose proof maxexp_pos as HP.
  destruct (Rle_dec v x0) as [Hle|Hgt].
  { (* at or left of x0: the constant y0 *)
    assert (transition_prime_at x0 x1 y0 y1 v = 0) as ->.
    { unfold transition_prime_at. by rewrite (proj2 (Rleb_true v x0) Hle). }
    assert (0 < (x1 - x0) / (@maxexp reals + 2)) as Hdelta
      by (apply Rdiv_lt_0_compat; lra).
    apply (derivable_pt_lim_locally_ext (fct_cte y0) _ v (v - 1)
             (x0 + (x1 - x0) / (@maxexp reals + 2))); [lra| |apply derivable_pt_lim_const].
    intros w [Hw0 Hw1]. unfold fct_cte. symmetry.
    destruct (Rle_dec w x0) as [Hwle|Hwgt]; [by apply transition_at_left|].
    destruct (exponent_right_of_x0 x0 x1 w) as [Hwx1 He]; [lra..|].
    apply transition_at_clamped; [lra|done]. }
  destruct (Rlt_dec v x1) as [Hlt|Hge].
  2:{ (* right of x1: the constant y1 *)
    assert (transition_prime_at x0 x1 y0 y1 v = 0) as ->.
    { unfold transition_prime_at. rewrite (proj2 (Rleb_false v x0)) by lra.
      rewrite (proj2 (Rltb_false v x1)) by lra. done. }
    apply (derivable_pt_lim_locally_ext (fct_cte y1) _ v x1 (v + 1));
      [lra| |apply derivable_pt_lim_const].
    intros w [Hw0 Hw1]. unfold fct_cte. symmetry. apply transition_at_right; lra. }
  assert (x0 < v < x1) as Hin by lra. specialize (Hthr Hin).
  assert (transition_prime_at x0 x1 y0 y1 v = sigmoid_prime (K := reals) x0 x1 (y1 - y0)%R v)
    as ->.
  { unfold transition_prime_at. rewrite (proj2 (Rleb_false v x0)) by lra.
    by rewrite (proj2 (Rltb_true v x1)) by lra. }
  destruct (Rlt_dec (exponent_of (K := reals) x0 x1 v) (@maxexp reals)) as [Hun|Hcl].
  - (* the interior, unclamped *)
    destruct (exponent_near x0 x1 v (@maxexp reals - exponent_of (K := reals) x0 x1 v))
      as (a & b & Ha0 & Hav & Hvb & Hb1 & Hnear); [done|lra|].
    apply (derivable_pt_lim_locally_ext (unclamped x0 x1 y0 y1) _ v a b); [lra| |].
    + intros w Hw. symmetry. apply transition_at_unclamped; [lra|].
      specialize (Hnear w Hw). apply Rabs_def2 in Hnear. lra.
    + rewrite sigmoid_prime_reals, (proj2 (Rleb_false _ _) Hun).
      apply (unclamped_derivative x0 x1 y0 y1 v Hin).
  - (* the interior, clamped *)
    assert (@maxexp reals < exponent_of (K := reals) x0 x1 v) as Hcl' by lra.
    destruct (exponent_near x0 x1 v (exponent_of (K := reals) x0 x1 v - @maxexp reals))
      as (a & b & Ha0 & Hav & Hvb & Hb1 & Hnear); [done|lra|].
    assert (sigmoid_prime (K := reals) x0 x1 (y1 - y0)%R v = 0) as ->.
    { rewrite sigmoid_prime_reals. by rewrite (proj2 (Rleb_true _ _)) by lra. }
    apply (derivable_pt_lim_locally_ext (fct_cte y0) _ v a b);
      [lra| |apply derivable_pt_lim_const].
    intros w Hw. unfold fct_cte. symmetry. apply transition_at_clamped; [lra|].
    specialize (Hnear w Hw). apply Rabs_def2 in Hnear. lra.
Qed.

Lemma exp_neg_bound u : 0 < u → exp (- u) < 4 / (u * u).
Proof.
  intros Hu.
  assert (1 + u / 2 < exp (u / 2)) as H1 by (apply exp_ineq1; lra).
  assert (exp u = exp (u / 2) * exp (u / 2)) as Hsq.
  { rewrite <- exp_plus. f_equal. lra. }
  assert (u * u / 4 < exp u) as H2 by (rewrite Hsq; nra).
  rewrite exp_Ropp.
  replace (4 / (u * u)) with (/ (u * u / 4)) by (field; lra).
  apply Rinv_lt_contravar; [|done].
  apply Rmult_lt_0_compat; [nra|apply exp_pos].
Qed.

(** Just left of [x1] the transition is unclamped and within
    [4 e^2 |y1 - y0| h^2 / (x1 - x0)^2] of [y1]. *)
Lemma transition_at_left_of_x1 x0 x1 y0 y1 h :
  x0 < x1 → h < 0 → - h < (x1 - x0) / 2 →
  ∃ E, 0 < E < exp 2 * 4 * (h * h) / ((x1 - x0) * (x1 - x0)) ∧
       transition_at x0 x1 y0 y1 (x1 + h) = y0 + (y1 - y0) / (1 + E).
Proof.
  intros Hx Hh Hnear. pose proof maxexp_pos as HP.
  set (d := x1 - x0) in *. assert (0 < d) as Hd by (unfold d; lra).
  exists (exp (exponent_of (K := reals) x0 x1 (x1 + h)%R)).
  assert (exponent_of (K := reals) x0 x1 (x1 + h)%R < 2 - d / (- h)) as He.
  { unfold exponent_of. simpl. fold d.
    set (tau := (x1 + h - x0) / d).
    assert (tau = 1 + h / d) as Htau by (unfold tau, d; field; unfold d in Hd; lra).
    assert (- / 2 < h / d) as Hhd.
    { apply (Rmult_lt_reg_r d); [done|].
      replace (h / d * d) with h by (field; lra). lra. }
    assert (h / d < 0) as Hhd0.
    { apply (Rmult_lt_reg_r d); [done|].
      replace (h / d * d) with h by (field; lra). lra. }
    assert (/ tau < 2) as H1.
    { rewrite <- (Rinv_inv 2). apply Rinv_lt_contravar; [|lra].
      apply Rmult_lt_0_compat; lra. }
    replace (1 - tau) with (- h / d) by (rewrite Htau; field; lra).
    replace (1 / (- h / d)) with (d / - h) by (field; lra).
    unfold Rdiv at 1. lra. }
  assert (0 < d / - h) as Hu by (apply Rdiv_lt_0_compat; lra).
  split_and!.
  - apply exp_pos.
  - eapply Rlt_le_trans.
    { apply exp_increasing. exact He. }
    replace (2 - d / - h) with (2 + - (d / - h)) by lra.
    rewrite exp_plus.
    pose proof (exp_neg_bound (d / - h) Hu) as Hb.
    pose proof (exp_pos 2) as H2.
    replace (exp 2 * 4 * (h * h) / (d * d))
      with (exp 2 * (4 / (d / - h * (d / - h)))) by (field; lra).
    apply Rmult_le_compat_l; lra.
  - apply transition_at_unclamped; [unfold d in *; lra|].
    assert (2 < d / - h) as Hu2.
    { apply (Rmult_lt_reg_r (- h)); [lra|].
      replace (d / - h * - h) with d by (field; lra). lra. }
    lra.
Qed.

Lemma transition_at_derivative_x1 x0 x1 y0 y1 :
  x0 < x1 → derivable_pt_lim (transition_at x0 x1 y0 y1) x1 0.
Proof.
  intros Hx eps Heps.
  set (d := x1 - x0). assert (0 < d) as Hd by (unfold d; lra).
  pose proof (exp_pos 2) as H2. pose proof (Rabs_pos (y1 - y0)) as HD.
  set (c := exp 2 * 4 * (Rabs (y1 - y0) + 1) / (d * d)).
  assert (0 < c) as Hc.
  { unfold c. apply Rdiv_lt_0_compat; [|nra].
    apply Rmult_lt_0_compat; [|lra]. lra. }
  assert (0 < Rmin (d / 2) (eps / c)) as Hdelta.
  { apply Rmin_glb_lt; [lra|by apply Rdiv_lt_0_compat]. }
  exists (mkposreal _ Hdelta). intros h Hh Hlt. simpl in Hlt.
  pose proof (Rmin_l (d / 2) (eps / c)). pose proof (Rmin_r (d / 2) (eps / c)).
  rewrite (transition_at_right x0 x1 y0 y1 x1) by lra. rewrite Rminus_0_r.
  destruct (Rlt_dec 0 h) as [Hpos|Hneg].
  { rewrite transition_at_right by lra.
    replace ((y1 - y1) / h) with 0 by (field; lra). rewrite Rabs_R0. lra. }
  assert (h < 0) as Hh0 by lra.
  rewrite (Rabs_left h Hh0) in Hlt.
  destruct (transition_at_left_of_x1 x0 x1 y0 y1 h Hx Hh0) as (E & [HE0 HE] & ->).
  { fold d. lra. }
  fold d in HE.
  set (t := E / ((1 + E) * - h)).
  assert (0 < t) as Ht.
  { unfold t. apply Rdiv_lt_0_compat; [done|]. apply Rmult_lt_0_compat; lra. }
  replace ((y0 + (y1 - y0) / (1 + E) - y1) / h) with ((y1 - y0) * t)
    by (unfold t; field; lra).
  rewrite Rabs_mult, (Rabs_pos_eq t) by lra.
  assert (t < exp 2 * 4 * - h / (d * d)) as Htb.
  { assert (t < E / - h) as Ht1.
    { unfold t, Rdiv. apply Rmult_lt_compat_l; [done|].
      apply Rinv_lt_contravar; [|nra]. apply Rmult_lt_0_compat; [lra|nra]. }
    eapply Rlt_trans; [exact Ht1|].
    replace (exp 2 * 4 * - h / (d * d)) with (exp 2 * 4 * (h * h) / (d * d) / - h)
      by (field; lra).
    unfold Rdiv at 1 3. apply Rmult_lt_compat_r; [|done].
    apply Rinv_0_lt_compat. lra. }
  assert (- h < eps / c) as Hhc by lra.
  assert (c * - h < eps) as Hch.
  { apply (Rmult_lt_compat_l c) in Hhc; [|done].
    replace (c * (eps / c)) with eps in Hhc by (field; lra). done. }
  assert (Rabs (y1 - y0) * t <= (Rabs (y1 - y0) + 1) * t) as Hle by nra.
  assert ((Rabs (y1 - y0) + 1) * t < c * - h) as Hlt'.
  { replace (c * - h) with ((Rabs (y1 - y0) + 1) * (exp 2 * 4 * - h / (d * d)))
      by (unfold c; field; lra).
    apply Rmult_lt_compat_l; lra. }
  lra.
Qed.

(** The pointwise transition is differentiable at every point but the one
    where the clamp switches on, and the value stored by the derivative
    is its derivative there. *)
Lemma transition_at_derivative x0 x1 y0 y1 v :
  x0 < x1 →
  (x0 < v < x1 → exponent_of (K := reals) x0 x1 v ≠ @maxexp reals) →
  derivable_pt_lim (transition_at x0 x1 y0 y1) v (transition_prime_at x0 x1 y0 y1 v).
Proof.
  intros Hx Hthr. destruct (Req_dec v x1) as [->|Hne].
  - assert (transition_prime_at x0 x1 y0 y1 x1 = 0) as ->.
    { unfold transition_prime_at. rewrite (proj2 (Rleb_false x1 x0)) by lra.
      rewrite (proj2 (Rltb_false x1 x1)) by lra. done. }
    by apply transition_at_derivative_x1.
  - by apply transition_at_derivative_off_x1.
Qed.


(** X15.  Over the reals, on a monotonic grid that reaches [x1] and for
    [x0 < x1], [transition_function_derivative] returns the derivative of
    what [transition_function] returns: with [T] the value that the
    transition stores as a function of the sample, the entry for a sample
    [x[k]] is the derivative of [T] at [x[k]].  This holds at every sample
    but one with [1/tau - 1/(1-tau)] exactly [maxexp], where the clamp
    switches on. *)
Theorem transition_function_derivative_exact (x : list R) (x0 x1 y0 y1 : R) :
  monotonic (K := reals) x → reaches (K := reals) x1 x → x0 < x1 →
  ∃ y y',
    transition_function (K := reals) x x0 x1 y0 y1 false = Some (y, None) ∧
    transition_function_derivative (K := reals) x x0 x1 y0 y1 = Some y' ∧
    ∀ k xk, x !! k = Some xk →
      y !! k = Some (transition_at x0 x1 y0 y1 xk) ∧
      ((x0 < xk < x1 → exponent_of (K := reals) x0 x1 xk ≠ @maxexp reals) →
       ∃ dk, y' !! k = Some dk ∧
             derivable_pt_lim (transition_at x0 x1 y0 y1) xk dk).
Proof.
  intros Hm Hre Hx.
  assert (@nlt reals x0 x1 = true) as Hlt by (by apply Rltb_true).
  pose proof (reaches_exceeds (K := reals) x x0 x1 Hlt Hre) as Hex.
  destruct (_transition_function_pointwise (K := reals) x x0 x1 y0 y1 Hm Hex Hre)
    as (y & i0 & i1 & Heq & _ & Hy).
  destruct (transition_function_derivative_pointwise (K := reals) x x0 x1 y0 y1 Hm Hex Hre)
    as (y' & Heq' & _ & Hy').
  exists y, y'. unfold transition_function. rewrite Heq, Heq'. simpl.
  split_and!; [done|done|].
  intros k xk Hk. split; [exact (Hy k xk Hk)|].
  intros Hthr. exists (transition_prime_at x0 x1 y0 y1 xk).
  split; [exact (Hy' k xk Hk)|]. by apply transition_at_derivative.
Qed.


End ExactDerivative.

(** A transition over [[0, 4]] and its derivative. *)
Lemma transition_function_derivative_exact_witness :
  ∃ y y', transition_function (K := reals) [0; 1; 2; 3; 4]%R 1%R 3%R 0%R 1%R false
          = Some (y, None) ∧
          transition_function_derivative (K := reals) [0; 1; 2; 3; 4]%R 1%R 3%R 0%R 1%R
          = Some y'.
Proof.
  destruct (transition_function_derivative_exact [0; 1; 2; 3; 4]%R 1%R 3%R 0%R 1%R)
    as (y & y' & Heq & Heq' & _); [grid_facts|grid_facts|lra|].
  exists y, y'. auto.
Defined.


(** ** The jump at the clamp *)

Section ClampJump.
Local Open Scope R_scope.

(** Across the interior the exponent decreases strictly. *)
Lemma exponent_of_decreasing (x0 x1 v w : R) :
  x0 < v → v < w → w < x1 →
  exponent_of (K := reals) x0 x1 w < exponent_of (K := reals) x0 x1 v.
Proof.
  intros Hv Hvw Hw. unfold exponent_of. simpl.
  set (d := x1 - x0). assert (0 < d) as Hd by (unfold d; lra).
  assert (0 < / d) as Hid by (by apply Rinv_0_lt_compat).
  set (tv := (v - x0) / d). set (tw := (w - x0) / d).
  assert (0 < tv) as Htv0 by (unfold tv, Rdiv; apply Rmult_lt_0_compat; lra).
  assert (tv < tw) as Htvw.
  { unfold tv, tw, Rdiv. apply Rmult_lt_compat_r; lra. }
  assert (tw < 1) as Htw1.
  { unfold tw, Rdiv. rewrite <- (Rinv_r d) by lra.
    apply Rmult_lt_compat_r; [done|unfold d; lra]. }
  assert (/ tw < / tv) as H1.
  { apply Rinv_lt_contravar; [|done]. apply Rmult_lt_0_compat; lra. }
  assert (/ (1 - tv) < / (1 - tw)) as H2.
  { apply Rinv_lt_contravar; [|lra]. apply Rmult_lt_0_compat; lra. }
  unfold Rdiv. lra.
Qed.

(** At a point where the exponent is exactly [maxexp] the value is [y0],
    and right of it the unclamped formula applies. *)
Lemma transition_clamp_jump (x0 x1 y0 y1 v : R) :
  x0 < v < x1 → exponent_of (K := reals) x0 x1 v = @maxexp reals → y0 ≠ y1 →
  transition_at x0 x1 y0 y1 v = y0 ∧
  (∀ w, v < w < x1 →
     transition_at x0 x1 y0 y1 w
     = y0 + (y1 - y0) / (1 + exp (exponent_of (K := reals) x0 x1 w))) ∧
  ¬ continuity_pt (transition_at x0 x1 y0 y1) v ∧
  ∀ l, ¬ derivable_pt_lim (transition_at x0 x1 y0 y1) v l.
Proof.
  intros Hv He Hy.
  assert (transition_at x0 x1 y0 y1 v = y0) as Hv0.
  { apply transition_at_clamped; [done|]. rewrite He. lra. }
  assert (∀ w, v < w < x1 → transition_at x0 x1 y0 y1 w = unclamped x0 x1 y0 y1 w)
    as Hright.
  { intros w Hw. apply transition_at_unclamped; [lra|].
    rewrite <- He. apply exponent_of_decreasing; lra. }
  assert (¬ continuity_pt (transition_at x0 x1 y0 y1) v) as Hnc.
  { intros Hc.
    pose proof (derivable_continuous_pt _ v
                  (exist _ _ (unclamped_derivative x0 x1 y0 y1 v Hv))) as Hu.
    set (J := unclamped x0 x1 y0 y1 v - y0).
    assert (J ≠ 0) as HJ.
    { unfold J, unclamped. pose proof (exp_pos (exponent_of (K := reals) x0 x1 v)) as HE.
      intros H0. apply Hy.
      assert ((y1 - y0) / (1 + exp (exponent_of (K := reals) x0 x1 v)) = 0) as Hq by lra.
      unfold Rdiv in Hq. apply Rmult_integral in Hq as [Hq|Hq]; [lra|].
      exfalso. apply (Rinv_neq_0_compat (1 + exp (exponent_of (K := reals) x0 x1 v))); lra. }
    assert (0 < Rabs J / 2) as Heps.
    { pose proof (Rabs_pos_lt J HJ). lra. }
    destruct (Hc _ Heps) as (a1 & Ha1 & Hn1).
    destruct (Hu _ Heps) as (a2 & Ha2 & Hn2).
    set (w := v + Rmin (Rmin a1 a2) (x1 - v) / 2).
    assert (0 < Rmin (Rmin a1 a2) (x1 - v)) as Hm.
    { apply Rmin_glb_lt; [apply Rmin_glb_lt; lra|lra]. }
    pose proof (Rmin_l (Rmin a1 a2) (x1 - v)). pose proof (Rmin_r (Rmin a1 a2) (x1 - v)).
    pose proof (Rmin_l a1 a2). pose proof (Rmin_r a1 a2).
    assert (v < w < x1) as Hw by (unfold w; lra).
    assert (Rdist w v < a1 ∧ Rdist w v < a2) as [Hd1 Hd2].
    { unfold Rdist. rewrite Rabs_right by lra. unfold w. lra. }
    specialize (Hn1 w). specialize (Hn2 w). simpl in Hn1, Hn2.
    assert (D_x no_cond v w) as HD by (split; [done|lra]).
    specialize (Hn1 (conj HD Hd1)). specialize (Hn2 (conj HD Hd2)).
    rewrite (Hright w Hw), Hv0 in Hn1. unfold Rdist in Hn1, Hn2.
    apply Rabs_def2 in Hn1, Hn2.
    destruct (Rle_dec 0 J) as [Hpos|Hneg].
    - rewrite (Rabs_pos_eq J Hpos) in Hn1, Hn2. unfold J in *. lra.
    - rewrite (Rabs_left J) in Hn1, Hn2 by lra. unfold J in *. lra. }
  split_and!; [done|exact Hright|done|].
  intros l Hl. apply Hnc. apply derivable_continuous_pt. by exists l.
Qed.

(** The exponent takes every positive value in the interior. *)
Lemma threshold_tau (P : R) :
  0 < P → ∃ tau, 0 < tau < 1 ∧ 1 / tau - 1 / (1 - tau) = P.
Proof.
  intros HP. set (s := sqrt (P * P + 4)).
  assert (s * s = P * P + 4) as Hs by (apply sqrt_sqrt; nra).
  assert (0 <= s) as Hs0 by apply sqrt_pos.
  assert (P < s) as Hs1 by nra.
  assert (s < P + 2) as Hs2 by nra.
  assert (2 - P < s) as Hs3 by nra.
  exists ((P + 2 - s) / (2 * P)).
  assert (0 < (P + 2 - s) / (2 * P)) as Ht0 by (apply Rdiv_lt_0_compat; lra).
  assert ((P + 2 - s) / (2 * P) < 1) as Ht1.
  { apply (Rmult_lt_reg_r (2 * P)); [lra|].
    replace ((P + 2 - s) / (2 * P) * (2 * P)) with (P + 2 - s) by (field; lra). lra. }
  split; [lra|].
  set (tau := (P + 2 - s) / (2 * P)) in *.
  assert (P * tau * (1 - tau) = 1 - 2 * tau) as Hq.
  { unfold tau. field_simplify; [|lra..].
    replace (s ^ 2) with (P * P + 4) by (rewrite <- Hs; ring). field. lra. }
  replace (1 / tau - 1 / (1 - tau)) with ((1 - 2 * tau) / (tau * (1 - tau)))
    by (field; lra).
  rewrite <- Hq. field. lra.
Qed.

(** X20.  Over the reals the clamp makes the transition discontinuous: for
    [x0 < x1] and [y0 <> y1] there is a point [v] inside [(x0, x1)], the one
    with [1/tau - 1/(1-tau) = maxexp], where the value stored is [y0] while
    at every point right of it the value is
    [y0 + (y1 - y0) / (1 + exp (1/tau - 1/(1-tau)))]; as a function of the
    sample the value is not continuous at [v], and has no derivative
    there. *)
Theorem transition_jumps_at_clamp (x0 x1 y0 y1 : R) :
  x0 < x1 → y0 ≠ y1 →
  ∃ v, x0 < v < x1 ∧
    exponent_of (K := reals) x0 x1 v = @maxexp reals ∧
    transition_at x0 x1 y0 y1 v = y0 ∧
    (∀ w, v < w < x1 →
       transition_at x0 x1 y0 y1 w
       = y0 + (y1 - y0) / (1 + exp (exponent_of (K := reals) x0 x1 w))) ∧
    ¬ continuity_pt (transition_at x0 x1 y0 y1) v ∧
    ∀ l, ¬ derivable_pt_lim (transition_at x0 x1 y0 y1) v l.
Proof.
  intros Hx Hy. destruct (threshold_tau (@maxexp reals) maxexp_pos) as (tau & Ht & He).
  set (v := x0 + tau * (x1 - x0)).
  assert (x0 < v < x1) as Hv by (unfold v; nra).
  assert (exponent_of (K := reals) x0 x1 v = @maxexp reals) as Hev.
  { rewrite <- He. unfold exponent_of. simpl.
    replace ((v - x0) / (x1 - x0)) with tau by (unfold v; field; lra). done. }
  exists v. split; [done|]. split; [done|].
  by apply transition_clamp_jump.
Qed.

End ClampJump.

(** The window from 0 to 1 over [(0, 1)]. *)
Lemma transition_jumps_at_clamp_witness :
  ∃ v, (0 < v < 1)%R ∧ ¬ continuity_pt (transition_at 0 1 0 1) v.
Proof.
  destruct (transition_jumps_at_clamp 0 1 0 1) as (v & Hv & _ & _ & _ & Hnc & _);
    [lra|lra|].
  exists v. auto.
Defined.

(** ** Transition to a constant: the edges *)

Section ToConstantEdges.
Context {K : Scalar} {O : ScalarOrder K}.
Implicit Types (a b f t : list num) (i j k lo hi : nat).
Local Open Scope num_scope.
Variable indefinite_integral : list num → list num → list num.



End ToConstantEdges.



(** ** A grid that steps over the window *)

Section Step.
Context {K : Scalar}.
Implicit Types (x : list num) (i j k : nat).
Local Open Scope num_scope.

Lemma scan_le_first x (x0 : num) j (xj : num) :
  x !! j = Some xj → (xj <=? x0) = false →
  (∀ k xk, (k < j)%nat → x !! k = Some xk → (xk <=? x0) = true) →
  scan_le x0 x 0 = Some j.
Proof.
  intros Hj Hstop Hbefore. pose proof (scan_le_spec x0 x 0) as Hs.
  destruct (scan_le x0 x 0) as [i|].
  - destruct Hs as (n & xn & -> & Hn & Hnstop & Hnbefore). simpl. f_equal.
    destruct (Nat.lt_trichotomy n j) as [Hlt|[->|Hgt]]; [|done|].
    + rewrite (Hbefore n xn Hlt Hn) in Hnstop. discriminate.
    + rewrite (Hnbefore j xj Hgt Hj) in Hstop. discriminate.
  - rewrite (Hs j xj Hj) in Hstop. discriminate.
Qed.

(** X19.  On any grid, if the first sample that is not [<= x0] is not
    [< x1] either (the grid steps over the window, or that sample is NaN),
    the second loop stores nothing: [_transition_function] returns [y0]
    before that sample and [y1] from it on, with both indices at it. *)
Theorem _transition_function_step x (x0 x1 y0 y1 : num) j (xj : num) :
  x !! j = Some xj →
  (∀ k xk, (k < j)%nat → x !! k = Some xk → (xk <=? x0) = true) →
  (xj <=? x0) = false → (xj <? x1) = false →
  _transition_function x x0 x1 y0 y1
  = Some (replicate j y0 ++ replicate (length x - j) y1, j, j).
Proof.
  intros Hj Hbefore Hstop0 Hstop1.
  pose proof (lookup_lt_Some _ _ _ Hj) as Hjlen.
  unfold _transition_function. rewrite (scan_le_first x x0 j xj Hj Hstop0 Hbefore).
  simpl. rewrite (drop_S x xj j Hj). simpl. rewrite Hstop1. simpl.
  do 3 f_equal. apply list_eq. intros k.
  rewrite !lookup_slice_fill, length_slice_fill. unfold np_empty_like.
  rewrite length_replicate.
  destruct (decide (k < length x)%nat) as [Hk|Hk].
  - rewrite lookup_replicate_2 by done. simpl.
    destruct (decide (k < j)%nat) as [Hkj|Hkj].
    + rewrite decide_False by lia. rewrite decide_True by lia.
      rewrite lookup_app_l by (rewrite length_replicate; lia).
      by rewrite lookup_replicate_2.
    + rewrite decide_True by lia.
      rewrite lookup_app_r by (rewrite length_replicate; lia).
      rewrite length_replicate. by rewrite lookup_replicate_2 by lia.
  - rewrite (lookup_ge_None_2 (replicate (length x) uninit) k)
      by (rewrite length_replicate; lia).
    simpl. symmetry. apply lookup_ge_None_2.
    rewrite length_app, !length_replicate. lia.
Qed.

End Step.

(** A NaN among the samples ends both scans. *)
Lemma _transition_function_step_witness :
  _transition_function (K := double) [0; nan; 0.5; 1]%float
    0.125%float 0.875%float 0%float 1%float
  = Some ([0; 1; 1; 1]%float, 1%nat, 1%nat).
Proof.
  apply (_transition_function_step (K := double) [0; nan; 0.5; 1]%float
           0.125%float 0.875%float 0%float 1%float 1 nan).
  - reflexivity.
  - intros [|k] xk Hk Hxk; [|lia]. injection Hxk as <-. reflexivity.
  - reflexivity.
  - reflexivity.
Defined.
